(** * pyser: a data-driven lexer, recursive-descent parser and start-rule policy

    Shallow embedding of [pyser/__init__.py].

    Conventions of the embedding.
    - A Python [str] is a [string]; each character is a code point below
      256, and the character classes ([str.isspace], [\s], [\d], [\w],
      [str.lower]) are CPython's tables on that range.
    - A Python [dict] whose order is observable (a rule definition, a parse
      node) is an association list with Python's update-in-place insertion;
      a registry that is only looked up by key is a [gmap].
    - [ParsingRule] objects are mutable and shared by reference, so they live
      in a heap (a list indexed by address) and grammar elements hold
      addresses.
    - Positions in the token list are natural numbers ([parse] starts the
      matcher at 0 and it only ever adds to the position).
    - Exceptions and non-termination are explicit: a computation returns
      [Done v], [Raise e], or [OutOfFuel] when the recursion budget of the
      model is exhausted. *)

From Stdlib Require Import Ascii String NArith.
From stdpp Require Import base option list gmap strings.

Set Warnings "-register-all".
Local Open Scope string_scope.
Local Open Scope nat_scope.

(** ** Results of computations that may raise or diverge *)

Inductive message :=
  | Unexpected_token (position : nat) (remainder : string)   (* Lexer.tokenize *)
  | Parsing_failed                                           (* Parser.parse *)
  | Lexer_and_Parser_must_be_set.                            (* Interpreter.interpret *)

Inductive exn :=
  | ValueError (m : message)
  | KeyError (key : string)
  | AttributeError (attribute : string)
  | TypeError (what : string)
  | Dangling (addr : nat).   (* not a Python exception: an address outside the
                                heap of the model; a Python reference cannot dangle *)

Inductive res (A : Type) :=
  | Done (a : A)
  | Raise (e : exn)
  | OutOfFuel.
Arguments Done {A} a.
Arguments Raise {A} e.
Arguments OutOfFuel {A}.

(* [x ← m; k] runs [m] and passes its value on; an exception or an exhausted
   budget in [m] ends the computation *)
#[global] Instance res_bind : MBind res := λ A B k m,
  match m with
  | Done a => k a
  | Raise e => Raise e
  | OutOfFuel => OutOfFuel
  end.

(** ** Python dictionaries with observable order

    The keys of a Python dict are distinct; the functions below are defined
    on every association list and agree with Python on those. *)

Section Dict.
Context {V : Type}.

Fixpoint dict_get (k : string) (d : list (string * V)) : option V :=
  match d with
  | [] => None
  | (k', v) :: d' => if String.eqb k k' then Some v else dict_get k d'
  end.

(* d[k] = v : an existing key keeps its place, a new key goes last *)
Fixpoint dict_set (k : string) (v : V) (d : list (string * V)) : list (string * V) :=
  match d with
  | [] => [(k, v)]
  | (k', v') :: d' =>
      if String.eqb k k' then (k, v) :: d' else (k', v') :: dict_set k v d'
  end.

Definition dict_keys (d : list (string * V)) : list string := map fst d.
End Dict.

(** ** Characters and strings *)

Module Str.

Definition code (c : ascii) : N := N_of_ascii c.

Definition between (lo hi : N) (c : ascii) : bool :=
  (lo <=? code c)%N && (code c <=? hi)%N.

(* str.isspace and the class \s: TAB..CR, FS..US, space, NEL, NBSP *)
Definition isspace (c : ascii) : bool :=
  between 9 13 c || between 28 32 c || (code c =? 133)%N || (code c =? 160)%N.

(* \d : decimal digits *)
Definition isdigit (c : ascii) : bool := between 48 57 c.

(* [A-Za-z_] *)
Definition isidstart (c : ascii) : bool :=
  between 65 90 c || between 97 122 c || (code c =? 95)%N.

(* \w : alphanumeric code points and the underscore *)
Definition isword (c : ascii) : bool :=
  isidstart c || isdigit c
  || (code c =? 170)%N || (code c =? 178)%N || (code c =? 179)%N
  || (code c =? 181)%N || (code c =? 185)%N || (code c =? 186)%N
  || between 188 190 c || between 192 214 c || between 216 246 c
  || between 248 255 c.

(* str.lower on one code point *)
Definition lower_char (c : ascii) : ascii :=
  if between 65 90 c || (between 192 222 c && negb (code c =? 215)%N)
  then ascii_of_N (code c + 32) else c.

Fixpoint lower (s : string) : string :=
  match s with
  | "" => ""
  | String c s' => String (lower_char c) (lower s')
  end.

(* s[n:] *)
Fixpoint drop (n : nat) (s : string) : string :=
  match n, s with
  | 0, _ => s
  | S n', String _ s' => drop n' s'
  | S _, "" => ""
  end.

(* the longest prefix of characters in a class, and what follows it *)
Fixpoint span (p : ascii → bool) (s : string) : string * string :=
  match s with
  | "" => ("", "")
  | String c s' =>
      if p c then let '(run, rest) := span p s' in (String c run, rest)
      else ("", s)
  end.

Fixpoint lstrip (s : string) : string :=
  match s with
  | "" => ""
  | String c s' => if isspace c then lstrip s' else s
  end.

Fixpoint rstrip (s : string) : string :=
  match s with
  | "" => ""
  | String c s' =>
      match rstrip s' with
      | "" => if isspace c then "" else String c ""
      | r => String c r
      end
  end.

(* text.strip() *)
Definition strip (s : string) : string := rstrip (lstrip s).

(* text.startswith(literal, position) *)
Definition startswith (text literal : string) (position : nat) : bool :=
  (position <=? String.length text)%nat && String.prefix literal (drop position text).

End Str.

(** ** The regular expressions the module uses

    [Lexer.tokenize] skips blanks with [\s+]; [TokenType.add_auto_token]
    chooses one of four patterns by name.  [re.match] anchors at the start of
    its subject and its quantifiers are greedy. *)

Inductive pattern :=
  | re_number       (* NUMBER: \d+(\.\d+)? *)
  | re_string       (* STRING: a double quote, [^Q]* with Q the double quote, a double quote *)
  | re_identifier   (* IDENTIFIER: [A-Za-z_]\w* *)
  | re_word.        (* any other name: \w+ *)

Module Re.
Import Str.

(* re.match(r'\s+', s): [Some n] with n = ws.end(), [None] for no match *)
Definition match_spaces (s : string) : option nat :=
  match fst (span isspace s) with
  | "" => None
  | run => Some (String.length run)
  end.

Definition isquote (c : ascii) : bool := (code c =? 34)%N.

(* re.match(p, s): [Some (m.group(0))], [None] for no match *)
Definition match_ (p : pattern) (s : string) : option string :=
  match p with
  | re_number =>
      match span isdigit s with
      | ("", _) => None
      | (int, String "." rest) =>
          match fst (span isdigit rest) with
          | "" => Some int
          | frac => Some (int ++ String "." frac)
          end
      | (int, _) => Some int
      end
  | re_string =>
      match s with
      | String c s' =>
          if isquote c then
            match span (fun x => negb (isquote x)) s' with
            | (body, String q _) => Some (String c (body ++ String q ""))
            | (_, "") => None
            end
          else None
      | "" => None
      end
  | re_identifier =>
      match s with
      | String c s' =>
          if isidstart c then Some (String c (fst (span isword s'))) else None
      | "" => None
      end
  | re_word =>
      match fst (span isword s) with
      | "" => None
      | run => Some run
      end
  end.
End Re.

(** ** Token and TokenType *)

Record TokenDefinition := {
  td_name : string;
  td_value : option string;      (* literal value if provided *)
  td_pattern : option pattern;   (* regex pattern for auto tokens *)
}.

(* TokenDefinition.__eq__ : same name and same value *)
Definition td_eq (a b : TokenDefinition) : bool :=
  String.eqb (td_name a) (td_name b) &&
  match td_value a, td_value b with
  | Some x, Some y => String.eqb x y
  | None, None => true
  | _, _ => false
  end.

Record Token := {
  tok_type : TokenDefinition;
  tok_value : string;
  tok_position : nat;
}.

Module TokenType.

(* self.tokens *)
Abbreviation t := (gmap string TokenDefinition).

Definition add_token (name literal : string) (tokens : t) : t :=
  <[name := {| td_name := name; td_value := Some literal; td_pattern := None |}]> tokens.

Definition add_auto_token (name : string) (tokens : t) : t :=
  if decide (name ∈ dom tokens) then tokens
  else
    let pattern :=
      if String.eqb name "NUMBER" then re_number
      else if String.eqb name "STRING" then re_string
      else if String.eqb name "IDENTIFIER" then re_identifier
      else re_word in
    <[name := {| td_name := name; td_value := None; td_pattern := Some pattern |}]> tokens.

(* tokentype[key] *)
Definition getitem (key : string) (tokens : t) : res TokenDefinition :=
  match tokens !! key with
  | Some td => Done td
  | None => Raise (KeyError key)
  end.

End TokenType.

(** ** Lexer *)

Module Lexer.
Import Str.

(* self.token_defs, in the order add_tokens received them *)
Abbreviation t := (list TokenDefinition).

Definition add_tokens (new_defs : list TokenDefinition) (token_defs : t) : t :=
  token_defs ++ new_defs.

(* first for loop of tokenize: the first definition with a literal value
   that the text starts with at [position] *)
Fixpoint match_literal (token_defs : t) (text : string) (position : nat)
  : option (TokenDefinition * string) :=
  match token_defs with
  | [] => None
  | token_def :: rest =>
      match td_value token_def with
      | Some literal =>
          if startswith text literal position then Some (token_def, literal)
          else match_literal rest text position
      | None => match_literal rest text position
      end
  end.

(* second for loop of tokenize: the first definition without a literal
   value whose pattern matches at [position]; re.match rejects a pattern
   that is None *)
Fixpoint match_auto (token_defs : t) (text : string) (position : nat)
  : res (option (TokenDefinition * string)) :=
  match token_defs with
  | [] => Done None
  | token_def :: rest =>
      match td_value token_def with
      | None =>
          match td_pattern token_def with
          | Some p =>
              match Re.match_ p (drop position text) with
              | Some value => Done (Some (token_def, value))
              | None => match_auto rest text position
              end
          | None => Raise (TypeError "first argument must be string or compiled pattern")
          end
      | Some _ => match_auto rest text position
      end
  end.

(* the while loop of tokenize; one unit of fuel per iteration *)
Fixpoint tokenize_loop (fuel : nat) (token_defs : t) (text : string)
    (tokens : list Token) (position : nat) : res (list Token) :=
  if (position <? String.length text)%nat then
    match fuel with
    | 0 => OutOfFuel
    | S fuel' =>
        let position :=
          match Re.match_spaces (drop position text) with
          | Some ws_end => position + ws_end
          | None => position
          end in
        if (String.length text <=? position)%nat then Done tokens
        else
          match match_literal token_defs text position with
          | Some (token_def, literal) =>
              tokenize_loop fuel' token_defs text
                (tokens ++ [{| tok_type := token_def; tok_value := literal;
                               tok_position := position |}])
                (position + String.length literal)
          | None =>
              found ← match_auto token_defs text position;
              match found with
              | Some (token_def, value) =>
                  tokenize_loop fuel' token_defs text
                    (tokens ++ [{| tok_type := token_def; tok_value := value;
                                   tok_position := position |}])
                    (position + String.length value)
              | None =>
                  Raise (ValueError (Unexpected_token position (drop position text)))
              end
          end
    end
  else Done tokens.

Definition tokenize (fuel : nat) (token_defs : t) (text : string) : res (list Token) :=
  tokenize_loop fuel token_defs (strip text) [] 0.

End Lexer.

(** ** Grammar elements, rules and parse nodes *)

(* what an alternative list may hold *)
Inductive element :=
  | ETok (td : TokenDefinition)                 (* a TokenDefinition *)
  | ERule (addr : nat)                          (* a ParsingRule, by reference *)
  | EDict (d : list (string * list element))    (* an inline dict *)
  | EOther.                                     (* any other object *)

Abbreviation definition := (list (string * list element)).

(* the Python values that reach a parse node *)
Inductive obj :=
  | VStr (s : string)
  | VAlts (l : list element)
  | VList (l : list obj)
  | VDict (d : list (string * obj)).

Abbreviation ParseNode := (list (string * obj)).

(* the attribute [definition] of a rule: the dict that update_definition
   stored, or an alternative list when a slot called definition overwrote it *)
Inductive definition_attr :=
  | DefDict (d : definition)
  | DefList (l : list element).

Record ParsingRule := {
  name : obj;                       (* VStr; VAlts once a slot called name was installed *)
  rule_definition : definition_attr;
  attrs : definition;               (* the attributes .a, .b, ... that update_definition adds *)
}.

Module Rule.

(* ParsingRule(name) *)
Definition init (name : string) : ParsingRule :=
  {| name := VStr name; rule_definition := DefDict []; attrs := [] |}.

(* setattr(self, key, value) on a ParsingRule instance.  [type] is a
   property without setter; __class__, __dict__ and __weakref__ are the data
   descriptors every such instance inherits; any other name is stored in the
   instance. *)
Definition setattr (key : string) (value : list element) (self : ParsingRule)
  : ParsingRule + exn :=
  if String.eqb key "type" then inr (AttributeError "type")
  else if String.eqb key "__weakref__" then inr (AttributeError "__weakref__")
  else if String.eqb key "__class__" then inr (TypeError "__class__ must be set to a class")
  else if String.eqb key "__dict__" then inr (TypeError "__dict__ must be set to a dictionary")
  else if String.eqb key "name" then
    inl {| name := VAlts value; rule_definition := rule_definition self; attrs := attrs self |}
  else if String.eqb key "definition" then
    inl {| name := name self; rule_definition := DefList value; attrs := attrs self |}
  else
    inl {| name := name self; rule_definition := rule_definition self;
           attrs := dict_set key value (attrs self) |}.

(* for key, value in definition.items(): setattr(self, key, value) *)
Fixpoint setattrs (items : definition) (self : ParsingRule) : ParsingRule * option exn :=
  match items with
  | [] => (self, None)
  | (key, value) :: items' =>
      match setattr key value self with
      | inl self' => setattrs items' self'
      | inr e => (self, Some e)
      end
  end.

(* the object after the call, and the exception if the call raised *)
Definition update_definition (d : definition) (self : ParsingRule)
  : ParsingRule * option exn :=
  setattrs d {| name := name self; rule_definition := DefDict d; attrs := attrs self |}.

End Rule.

(** ** Parser *)

Record Parser := {
  heap : list ParsingRule;    (* the ParsingRule objects, by address *)
  rules : gmap string nat;    (* self.rules: rule name to ParsingRule object *)
}.

Module Parser.

Definition init : Parser := {| heap := []; rules := ∅ |}.

(* self.rules[name] = ParsingRule(name) *)
Definition new_parsing_rule (rule_name : string) (self : Parser) : Parser :=
  {| heap := heap self ++ [Rule.init rule_name];
     rules := <[rule_name := length (heap self)]> (rules self) |}.

(* parser[key] : a reference to the rule object *)
Definition getitem (key : string) (self : Parser) : res nat :=
  match rules self !! key with
  | Some addr => Done addr
  | None => Raise (KeyError key)
  end.

(* parser[key] = value : the parser after the statement, and the exception
   if it raised.  In the first branch the method is looked up on the
   instance, where a slot called update_definition installed earlier
   shadows it. *)
Definition setitem (key : string) (value : definition) (self : Parser)
  : Parser * option exn :=
  match rules self !! key with
  | Some addr =>
      match heap self !! addr with
      | Some rule =>
          match dict_get "update_definition" (attrs rule) with
          | Some _ => (self, Some (TypeError "'list' object is not callable"))
          | None =>
              let '(rule', e) := Rule.update_definition value rule in
              ({| heap := <[addr := rule']> (heap self); rules := rules self |}, e)
          end
      | None => (self, Some (Dangling addr))
      end
  | None =>
      let '(rule', e) := Rule.update_definition value (Rule.init key) in
      ({| heap := heap self ++ [rule'];
          rules := <[key := length (heap self)]> (rules self) |}, e)
  end.

Section Matcher.
Variable rule_heap : list ParsingRule.
Variable tokens : list Token.

Section Body.
(* the recursive calls self._parse_rule(rule, tokens, pos) *)
Variable parse_rule : ParsingRule → nat → res (option obj * nat).

Definition parse_element (element : element) (pos : nat) : res (option obj * nat) :=
  match element with
  | ETok td =>
      match tokens !! pos with
      | Some tok =>
          if td_eq (tok_type tok) td then
            Done (Some (VDict [("type", VStr (td_name (tok_type tok)));
                               ("value", VStr (tok_value tok))]), pos + 1)
          else Done (None, pos)
      | None => Done (None, pos)
      end
  | ERule addr =>
      match rule_heap !! addr with
      | Some rule => parse_rule rule pos
      | None => Raise (Dangling addr)
      end
  | EDict d =>
      match Rule.update_definition d (Rule.init "temp") with
      | (temp_rule, None) => parse_rule temp_rule pos
      | (_, Some e) => Raise e
      end
  | EOther => Done (None, pos)
  end.

(* for alt in alternatives: ... break, and likewise
   for opt in rule.definition["optional"]: ... break -- the result and new
   position of the first alternative that parses, [None] when the loop runs
   out without a break *)
Fixpoint first_alternative (alternatives : list element) (pos : nat)
  : res (option (obj * nat)) :=
  match alternatives with
  | [] => Done None
  | alt :: rest =>
      '(res, new_pos) ← parse_element alt pos;
      match res with
      | Some parsed => Done (Some (parsed, new_pos))
      | None => first_alternative rest pos
      end
  end.

(* for part in [k for k in rule.definition.keys() if k != "optional"];
   [None] stands for the early return None, start_pos *)
Fixpoint mandatory_parts (d : definition) (parts : list string)
    (node : ParseNode) (pos : nat) : res (option (ParseNode * nat)) :=
  match parts with
  | [] => Done (Some (node, pos))
  | part :: rest =>
      match dict_get part d with
      | Some alternatives =>
          found ← first_alternative alternatives pos;
          match found with
          | Some (parsed, new_pos) =>
              mandatory_parts d rest (dict_set part parsed node) new_pos
          | None => Done None
          end
      | None => Raise (KeyError part)
      end
  end.

(* while True: ... ; one unit of [n] per iteration *)
Fixpoint optional_loop (n : nat) (opts : list element)
    (opt_results : list obj) (pos : nat) : res (list obj * nat) :=
  match n with
  | 0 => OutOfFuel
  | S n' =>
      found ← first_alternative opts pos;
      match found with
      | Some (parsed, new_pos) =>
          optional_loop n' opts (opt_results ++ [parsed]) new_pos
      | None => Done (opt_results, pos)
      end
  end.

Definition mandatory_keys (d : definition) : list string :=
  filter (λ k, k ≠ "optional") (dict_keys d).

Definition parse_rule_body (n : nat) (rule : ParsingRule) (pos : nat)
  : res (option obj * nat) :=
  let node := [("type", name rule)] in
  let start_pos := pos in
  match rule_definition rule with
  | DefList _ => Raise (AttributeError "keys")
  | DefDict d =>
      done ← mandatory_parts d (mandatory_keys d) node pos;
      match done with
      | None => Done (None, start_pos)
      | Some (node, pos) =>
          match dict_get "optional" d with
          | Some opts =>
              '(opt_results, pos) ← optional_loop n opts [] pos;
              match opt_results with
              | [] => Done (Some (VDict node), pos)
              | _ => Done (Some (VDict (dict_set "optional" (VList opt_results) node)), pos)
              end
          | None => Done (Some (VDict node), pos)
          end
      end
  end.
End Body.

(* one unit of fuel per nested call of _parse_rule; the while loop of a
   call gets the remaining fuel as its iteration budget *)
Fixpoint _parse_rule (fuel : nat) (rule : ParsingRule) (pos : nat)
  : res (option obj * nat) :=
  match fuel with
  | 0 => OutOfFuel
  | S fuel' => parse_rule_body (_parse_rule fuel') fuel' rule pos
  end.

Definition _parse_element (fuel : nat) (element : element) (pos : nat)
  : res (option obj * nat) :=
  parse_element (_parse_rule fuel) element pos.
End Matcher.

Definition parse (fuel : nat) (self : Parser) (tokens : list Token)
    (start_rule_name : string) : res obj :=
  match rules self !! start_rule_name with
  | None => Raise (KeyError start_rule_name)
  | Some addr =>
      match heap self !! addr with
      | None => Raise (Dangling addr)
      | Some rule =>
          '(result, pos) ← _parse_rule (heap self) tokens fuel rule 0;
          match result with
          | Some tree =>
              if decide (pos ≠ length tokens) then Raise (ValueError Parsing_failed)
              else Done tree
          | None => Raise (ValueError Parsing_failed)
          end
      end
  end.

End Parser.

(** ** Interpreter: from text to parse tree *)

Module Interpreter.

(* the dynamic start rule selection of interpret *)
Definition start_rule (parser_rules : gmap string nat) (tokens : list Token) : string :=
  if decide ("program" ∈ dom parser_rules) then "program"
  else
    let candidate :=
      match tokens with
      | tok :: _ => td_name (tok_type tok)
      | [] => "math"
      end in
    if decide (candidate ∈ dom parser_rules) then candidate
    else if decide (Str.lower candidate ∈ dom parser_rules) then Str.lower candidate
    else if String.eqb candidate "LPAREN" && bool_decide ("paren_math" ∈ dom parser_rules)
         then "paren_math"
    else "math".

(* interpret(input_data) for a str, up to parse_tree *)
Definition parse_text (fuel : nat) (lexer : option Lexer.t) (parser : option Parser)
    (input_data : string) : res obj :=
  match lexer, parser with
  | Some lexer, Some parser =>
      tokens ← Lexer.tokenize fuel lexer input_data;
      Parser.parse fuel parser tokens (start_rule (rules parser) tokens)
  | _, _ => Raise (ValueError Lexer_and_Parser_must_be_set)
  end.

End Interpreter.

(** ** The grammar of main.py, built through the API calls of that script *)

Module Main.
Import Parser.

Definition tokentype : TokenType.t :=
  TokenType.add_token "PRINT" "print"
    (TokenType.add_auto_token "STRING"
      (TokenType.add_auto_token "NUMBER"
        (TokenType.add_token "RPAREN" ")"
          (TokenType.add_token "LPAREN" "("
            (TokenType.add_token "DIVIDE" "/"
              (TokenType.add_token "MULTIPLY" "*"
                (TokenType.add_token "MINUS" "-"
                  (TokenType.add_token "PLUS" "+" ∅)))))))).

(* a statement that may raise, as a step of a script *)
Definition stmt (r : Parser * option exn) : res Parser :=
  match r with
  | (p, None) => Done p
  | (_, Some e) => Raise e
  end.

Definition setup : res (Lexer.t * Parser) :=
  PLUS ← TokenType.getitem "PLUS" tokentype;
  MINUS ← TokenType.getitem "MINUS" tokentype;
  MULTIPLY ← TokenType.getitem "MULTIPLY" tokentype;
  DIVIDE ← TokenType.getitem "DIVIDE" tokentype;
  LPAREN ← TokenType.getitem "LPAREN" tokentype;
  RPAREN ← TokenType.getitem "RPAREN" tokentype;
  NUMBER ← TokenType.getitem "NUMBER" tokentype;
  STRING ← TokenType.getitem "STRING" tokentype;
  PRINT ← TokenType.getitem "PRINT" tokentype;
  let lexer :=
    Lexer.add_tokens
      [PLUS; MINUS; MULTIPLY; DIVIDE; LPAREN; RPAREN; NUMBER; STRING; PRINT] [] in
  let p := new_parsing_rule "paren_math" Parser.init in
  let p := new_parsing_rule "math" p in
  let p := new_parsing_rule "math_continuer" p in
  let p := new_parsing_rule "print" p in
  math_continuer ← getitem "math_continuer" p;
  p ← stmt (setitem "math"
         [("a", [ETok NUMBER; ETok STRING]);
          ("b", [ETok PLUS; ETok MINUS; ETok MULTIPLY; ETok DIVIDE]);
          ("c", [ETok NUMBER; ETok STRING]);
          ("optional", [ERule math_continuer])] p);
  math_continuer ← getitem "math_continuer" p;
  paren_math ← getitem "paren_math" p;
  p ← stmt (setitem "math_continuer"
         [("a", [ETok PLUS; ETok MINUS; ETok MULTIPLY; ETok DIVIDE]);
          ("b", [ETok NUMBER; ETok STRING; ERule paren_math]);
          ("optional", [ERule math_continuer])] p);
  math ← getitem "math" p;
  paren_math ← getitem "paren_math" p;
  math_continuer ← getitem "math_continuer" p;
  p ← stmt (setitem "paren_math"
         [("a", [ETok LPAREN]);
          ("b", [ERule math; ERule paren_math; ERule math_continuer]);
          ("c", [ETok RPAREN]);
          ("optional", [ERule math_continuer])] p);
  math ← getitem "math" p;
  paren_math ← getitem "paren_math" p;
  math_continuer ← getitem "math_continuer" p;
  p ← stmt (setitem "print"
         [("a", [ETok PRINT]);
          ("b", [ETok LPAREN]);
          ("c", [ETok STRING; ERule math; ERule paren_math; ERule math_continuer]);
          ("d", [ETok RPAREN])] p);
  Done (lexer, p).

(* the lexer and the parser that interpreter.set_lexer and
   interpreter.set_parser receive *)
Definition lexer : option Lexer.t :=
  match setup with Done (lexer, _) => Some lexer | _ => None end.
Definition parser : option Parser :=
  match setup with Done (_, parser) => Some parser | _ => None end.

End Main.

(** ** Small grammars and inputs used as instances below *)

Module Examples.

Definition NUMBER : TokenDefinition :=
  {| td_name := "NUMBER"; td_value := None; td_pattern := Some re_number |}.
Definition PLUS : TokenDefinition :=
  {| td_name := "PLUS"; td_value := Some "+"; td_pattern := None |}.
Definition ASSIGN : TokenDefinition :=
  {| td_name := "ASSIGN"; td_value := Some "="; td_pattern := None |}.
Definition EQUALS : TokenDefinition :=
  {| td_name := "EQUALS"; td_value := Some "=="; td_pattern := None |}.

Definition token (td : TokenDefinition) (value : string) (position : nat) : Token :=
  {| tok_type := td; tok_value := value; tok_position := position |}.

Definition leaf (td : TokenDefinition) (value : string) : obj :=
  VDict [("type", VStr (td_name td)); ("value", VStr value)].

(* parser[key] = d on a new parser, and the rule object it creates *)
Definition rule_of (key : string) (d : definition) : ParsingRule :=
  default (Rule.init key) (heap (Parser.setitem key d Parser.init).1 !! 0).

(* a NUMBER then a PLUS *)
Definition pair_definition : definition :=
  [("a", [ETok NUMBER]); ("b", [ETok PLUS])].

(* a NUMBER, then any run of PLUS *)
Definition run_definition : definition :=
  [("a", [ETok NUMBER]); ("optional", [ETok PLUS])].

(* an optional alternative that matches without a token: the empty inline rule *)
Definition empty_optional : definition := [("optional", [EDict []])].

Definition two_numbers : list Token := [token NUMBER "3" 0; token NUMBER "4" 2].
Definition number_plus_plus : list Token :=
  [token NUMBER "3" 0; token PLUS "+" 1; token PLUS "+" 2].

End Examples.

(** ** Specification-side notions

    The definitions of this part are not translations of the code: they
    restate, in the words of the specification, what the theorems below
    compare the code with. *)

(** The start-rule policy of the specification: the rule called program if
    registered; else the kind name of the first token, exact, then
    lowercased; else the grouping rule for a left-parenthesis kind; else the
    default rule. *)
Module Policy.

Definition registered (parser_rules : gmap string nat) (rule_name : string) : bool :=
  bool_decide (is_Some (parser_rules !! rule_name)).

Definition first_kind (tokens : list Token) : option string :=
  (λ tok, td_name (tok_type tok)) <$> head tokens.

Definition left_parenthesis : string := "LPAREN".
Definition grouping_rule : string := "paren_math".
Definition default_rule : string := "math".

Definition select (parser_rules : gmap string nat) (tokens : list Token) : string :=
  if registered parser_rules "program" then "program"
  else
    match first_kind tokens with
    | Some kind =>
        if registered parser_rules kind then kind
        else if registered parser_rules (Str.lower kind) then Str.lower kind
        else if bool_decide (kind = left_parenthesis)
                && registered parser_rules grouping_rule then grouping_rule
        else default_rule
    | None => default_rule
    end.

End Policy.

(** Ordered choice and the optional rounds, as relations over the matcher of
    one element [elem]. *)
Section Rounds.
Variable elem : element → nat → res (option obj * nat).

(* no alternative of the list matches at [pos] *)
Definition NoSuccess (alternatives : list element) (pos : nat) : Prop :=
  Forall (λ alt, ∃ pos', elem alt pos = Done (None, pos')) alternatives.

(* [parsed] and [new_pos] come from the first alternative, in declared
   order, that matches at [pos] *)
Inductive FirstSuccess : list element → nat → obj → nat → Prop :=
  | first_here alt rest pos parsed new_pos :
      elem alt pos = Done (Some parsed, new_pos) →
      FirstSuccess (alt :: rest) pos parsed new_pos
  | first_later alt rest pos pos' parsed new_pos :
      elem alt pos = Done (None, pos') →
      FirstSuccess rest pos parsed new_pos →
      FirstSuccess (alt :: rest) pos parsed new_pos.

(* successive successful rounds over the optional alternatives: from [pos],
   collecting [results] in order, arriving at [final] *)
Inductive Rounds (opts : list element) : nat → list obj → nat → Prop :=
  | rounds_nil pos : Rounds opts pos [] pos
  | rounds_cons pos parsed new_pos results final :
      FirstSuccess opts pos parsed new_pos →
      Rounds opts new_pos results final →
      Rounds opts pos (parsed :: results) final.
End Rounds.

(** Slot names that [setattr] stores as ordinary instance attributes. *)
Definition plain_slot (key : string) : Prop :=
  key ∉ ["type"; "__weakref__"; "__class__"; "__dict__"; "name"; "definition"].

Definition plain_slots (d : definition) : Prop := Forall plain_slot (dict_keys d).

(** The lexer of the specification: literal kinds and pattern kinds are two
    sub-catalogues, each scanned in registration order; the token list is
    produced front to back. *)
Module LexSpec.
Import Str.

Definition literal_kinds (token_defs : list TokenDefinition)
  : list (TokenDefinition * string) :=
  omap (λ td, (λ literal, (td, literal)) <$> td_value td) token_defs.

Definition pattern_kinds (token_defs : list TokenDefinition)
  : list (TokenDefinition * pattern) :=
  omap (λ td, match td_value td with
              | None => (λ p, (td, p)) <$> td_pattern td
              | Some _ => None
              end) token_defs.

(* the pattern matches a non-empty prefix *)
Definition nonempty_match (p : pattern) (s : string) : option string :=
  match Re.match_ p s with
  | Some "" => None
  | m => m
  end.

Definition next_token (token_defs : list TokenDefinition) (text : string)
    (position : nat) : option (TokenDefinition * string) :=
  match List.find (λ k, String.prefix (snd k) (drop position text))
                  (literal_kinds token_defs) with
  | Some k => Some k
  | None =>
      head (omap (λ k, (λ value, (fst k, value))
                         <$> nonempty_match (snd k) (drop position text))
                 (pattern_kinds token_defs))
  end.

Definition skip_whitespace (text : string) (position : nat) : nat :=
  position + String.length (fst (span isspace (drop position text))).

Fixpoint scan (fuel : nat) (token_defs : list TokenDefinition) (text : string)
    (position : nat) : res (list Token) :=
  if (position <? String.length text)%nat then
    match fuel with
    | 0 => OutOfFuel
    | S fuel' =>
        let position := skip_whitespace text position in
        if (String.length text <=? position)%nat then Done []
        else
          match next_token token_defs text position with
          | Some (kind, value) =>
              rest ← scan fuel' token_defs text (position + String.length value);
              Done ({| tok_type := kind; tok_value := value;
                       tok_position := position |} :: rest)
          | None => Raise (ValueError (Unexpected_token position (drop position text)))
          end
    end
  else Done [].

Definition tokenize (fuel : nat) (token_defs : list TokenDefinition) (text : string)
  : res (list Token) :=
  scan fuel token_defs (strip text) 0.

(* a kind is literal or pattern-based *)
Definition kind (td : TokenDefinition) : Prop :=
  td_value td = None → td_pattern td ≠ None.

(* [c] can begin a token of the kind *)
Definition can_start (td : TokenDefinition) (c : ascii) : bool :=
  match td_value td, td_pattern td with
  | Some "", _ => true
  | Some (String c' _), _ => Ascii.eqb c' c
  | None, Some re_number => isdigit c
  | None, Some re_string => Re.isquote c
  | None, Some re_identifier => isidstart c
  | None, Some re_word => isword c
  | None, None => true
  end.

(* a non-blank character that begins no token of the catalogue *)
Definition unregistered (token_defs : list TokenDefinition) (c : ascii) : Prop :=
  isspace c = false ∧ Forall (λ td, can_start td c = false) token_defs.

End LexSpec.

(** What a call of the matcher entered at [pos] may produce: a position
    between [pos] and the end of the tokens, equal to [pos] when no node is
    returned; never a ValueError. *)
Definition matcher_post (tokens : list Token) (pos : nat)
    (r : res (option obj * nat)) : Prop :=
  match r with
  | Done (parsed, pos') => pos ≤ pos' ≤ length tokens ∧ (parsed = None → pos' = pos)
  | Raise (ValueError _) => False
  | _ => True
  end.

(** The same for the loops of the matcher, which return a position only with
    a result. *)
Definition loop_post {A} (tokens : list Token) (pos : nat)
    (r : res (option (A * nat))) : Prop :=
  match r with
  | Done (Some (_, pos')) => pos ≤ pos' ≤ length tokens
  | Raise (ValueError _) => False
  | _ => True
  end.

(** [r1] is [r2], unless the budget ran out before [r1] was known. *)
Definition res_le {A} (r1 r2 : res A) : Prop := r1 = OutOfFuel ∨ r1 = r2.

(** ** Interpreter: the table of interpreting rules

    [InterpretingRule] objects are shared by reference like parsing rules,
    and membership in [interpreting_rules] compares objects by identity (the
    class defines no __eq__), so the table holds addresses.  The dynamic
    execution of a rule's code by [interpret] is outside this embedding. *)

Record InterpretingRule := {
  ir_rule_name : string;
  ir_code : option string;                           (* None until implemented *)
  ir_parser_rule : option nat;                       (* a ParsingRule, by reference *)
  ir_external_variable_names : option (list string); (* set by implement_interpreting_rule *)
}.

Record InterpreterTable := {
  ir_heap : list InterpretingRule;   (* the InterpretingRule objects, by address *)
  ir_rules : gmap string nat;        (* self.rules *)
  interpreting_rules : list nat;     (* self.interpreting_rules *)
}.

Module Table.

Definition init : InterpreterTable :=
  {| ir_heap := []; ir_rules := ∅; interpreting_rules := [] |}.

(* InterpretingRule(rule_name) *)
Definition new_rule (rule_name : string) : InterpretingRule :=
  {| ir_rule_name := rule_name; ir_code := None; ir_parser_rule := None;
     ir_external_variable_names := None |}.

(* interpreter[key] : creates the rule when the key is absent *)
Definition getitem (key : string) (self : InterpreterTable) : InterpreterTable * nat :=
  match ir_rules self !! key with
  | Some addr => (self, addr)
  | None =>
      ({| ir_heap := ir_heap self ++ [new_rule key];
          ir_rules := <[key := length (ir_heap self)]> (ir_rules self);
          interpreting_rules := interpreting_rules self |},
       length (ir_heap self))
  end.

(* rule.parser(parser_rule) : stores the reference and returns the rule *)
Definition parser (rule parser_rule : nat) (self : InterpreterTable)
  : InterpreterTable * nat :=
  ({| ir_heap :=
        alter (λ r, {| ir_rule_name := ir_rule_name r; ir_code := ir_code r;
                       ir_parser_rule := Some parser_rule;
                       ir_external_variable_names := ir_external_variable_names r |})
              rule (ir_heap self);
      ir_rules := ir_rules self;
      interpreting_rules := interpreting_rules self |}, rule).

Definition add_interpreting_rules (rules_list : list nat) (self : InterpreterTable)
  : InterpreterTable :=
  {| ir_heap := ir_heap self; ir_rules := ir_rules self;
     interpreting_rules := interpreting_rules self ++ rules_list |}.

Definition implement_interpreting_rule (rule : nat) (code : string)
    (external_variables : option (list string)) (self : InterpreterTable)
  : InterpreterTable :=
  {| ir_heap :=
       alter (λ r, {| ir_rule_name := ir_rule_name r; ir_code := Some code;
                      ir_parser_rule := ir_parser_rule r;
                      ir_external_variable_names :=
                        Some (default [] external_variables) |})
             rule (ir_heap self);
     ir_rules := ir_rules self;
     interpreting_rules := interpreting_rules self |}.

Definition add_interpreting_rule (rule_name : string) (self : InterpreterTable)
  : InterpreterTable * nat :=
  let '(self, rule) := getitem rule_name self in
  if decide (rule ∈ interpreting_rules self) then (self, rule)
  else ({| ir_heap := ir_heap self; ir_rules := ir_rules self;
           interpreting_rules := interpreting_rules self ++ [rule] |}, rule).

(* the test of interpret:
   rule_name in self.rules and self.rules[rule_name].code is not None *)
Definition implemented (rule_name : string) (self : InterpreterTable) : bool :=
  match ir_rules self !! rule_name with
  | Some addr =>
      match ir_heap self !! addr with
      | Some rule => bool_decide (ir_code rule ≠ None)
      | None => false
      end
  | None => false
  end.

End Table.

(** ** Notions used to state further properties *)

(* every character is a blank *)
Fixpoint blank (s : string) : bool :=
  match s with
  | "" => true
  | String c s' => Str.isspace c && blank s'
  end.

(* the entries of a catalogue carry their key as name and are either literal
   or pattern kinds, never both and never neither *)
Definition catalogue_ok (tokens : gmap string TokenDefinition) : Prop :=
  ∀ key td, tokens !! key = Some td →
    td_name td = key
    ∧ ((∃ literal, td_value td = Some literal) ∧ td_pattern td = None
       ∨ td_value td = None ∧ ∃ p, td_pattern td = Some p).

(* [value] is what the kind [td] recognises at the head of [value ++ rest] *)
Definition lexeme (td : TokenDefinition) (value rest : string) : Prop :=
  td_value td = Some value
  ∨ td_value td = None
    ∧ ∃ p, td_pattern td = Some p ∧ Re.match_ p (value ++ rest) = Some value.

(* the tokens cut the text, read from [offset], into lexemes of the catalogue
   separated by blanks: nothing is skipped but blanks, nothing is read twice,
   and each token records where its text starts *)
Inductive Tiling (token_defs : list TokenDefinition) : string → nat → list Token → Prop :=
  | tiling_end gap offset :
      blank gap = true → Tiling token_defs gap offset []
  | tiling_token gap value rest offset td tokens :
      blank gap = true →
      td ∈ token_defs →
      lexeme td value rest →
      Tiling token_defs rest (offset + String.length gap + String.length value) tokens →
      Tiling token_defs (gap ++ value ++ rest) offset
        ({| tok_type := td; tok_value := value;
            tok_position := offset + String.length gap |} :: tokens).

(* a property of definitions that holds of every inline dict inside an
   element, at any depth *)
Fixpoint everywhere (P : definition → Prop) (e : element) : Prop :=
  match e with
  | EDict d =>
      P d
      ∧ (fix slots (d : definition) : Prop :=
           match d with
           | [] => True
           | (_, alternatives) :: d' =>
               (fix alts (l : list element) : Prop :=
                  match l with
                  | [] => True
                  | alt :: l' => everywhere P alt ∧ alts l'
                  end) alternatives
               ∧ slots d'
           end) d
  | _ => True
  end.

Definition definition_ok (P : definition → Prop) (d : definition) : Prop :=
  P d ∧ Forall (λ slot, Forall (everywhere P) slot.2) d.

(* the property holds of the definition of the rule and of every inline dict
   inside it *)
Definition rule_ok (P : definition → Prop) (rule : ParsingRule) : Prop :=
  ∀ d, rule_definition rule = DefDict d → definition_ok P d.

(* alternatives that are token definitions (or objects that never match) *)
Definition token_only (alternatives : list element) : Prop :=
  Forall (λ alt, match alt with ETok _ | EOther => True | _ => False end) alternatives.

(* the first mandatory slot of the definition holds token alternatives only *)
Definition token_first (d : definition) : Prop :=
  ∃ part parts alternatives,
    Parser.mandatory_keys d = part :: parts
    ∧ dict_get part d = Some alternatives
    ∧ token_only alternatives.

(* the slot names are those of a dict, and none is called type *)
Definition distinct_slots (d : definition) : Prop :=
  NoDup (dict_keys d) ∧ "type" ∉ dict_keys d.

(* the node of a matched token *)
Definition as_leaf (d : ParseNode) : option (string * string) :=
  match d with
  | [(k1, VStr kind); (k2, VStr text)] =>
      if String.eqb k1 "type" && String.eqb k2 "value" then Some (kind, text) else None
  | _ => None
  end.

(* the token nodes of a parse tree, left to right *)
Fixpoint leaves (o : obj) : list (string * string) :=
  match o with
  | VStr _ | VAlts _ => []
  | VList l =>
      (fix of_list (l : list obj) : list (string * string) :=
         match l with
         | [] => []
         | x :: l' => (leaves x ++ of_list l')%list
         end) l
  | VDict d =>
      match as_leaf d with
      | Some leaf => [leaf]
      | None =>
          (fix of_entries (d : ParseNode) : list (string * string) :=
             match d with
             | [] => []
             | (_, v) :: d' => (leaves v ++ of_entries d')%list
             end) d
      end
  end.

(* kind name and text of a token, as its node shows them *)
Definition token_leaf (tok : Token) : string * string :=
  (td_name (tok_type tok), tok_value tok).

Definition list_leaves (l : list obj) : list (string * string) :=
  concat (map leaves l).

Definition values_leaves (d : ParseNode) : list (string * string) :=
  concat (map (λ entry, leaves entry.2) d).

(* tokens[pos:final] *)
Definition segment (tokens : list Token) (pos final : nat) : list Token :=
  take (final - pos) (drop pos tokens).

(* the name of the rule is the string the constructor stored, or the list a
   slot called name put in its place *)
Definition plain_name (rule : ParsingRule) : Prop :=
  match name rule with
  | VStr _ | VAlts _ => True
  | _ => False
  end.

(* a rule as the API builds it from a definition with distinct slot names,
   none called type, also in its inline rules *)
Definition tidy_rule (rule : ParsingRule) : Prop :=
  rule_ok distinct_slots rule ∧ plain_name rule.

(* what a matched element or rule returns: a dict whose leaves are the tokens
   it consumed *)
Definition consumed (tokens : list Token) (pos : nat) (tree : obj) (final : nat) : Prop :=
  (∃ node, tree = VDict node)
  ∧ leaves tree = map token_leaf (segment tokens pos final).

(* the parser that main.py configures *)
Definition main_parser : Parser := default Parser.init Main.parser.
Definition main_lexer : Lexer.t := default [] Main.lexer.

(** * Properties *)

(** ** Token catalogue *)

(** C9. Registration is asymmetric: [add_token] binds the name to the new
    literal kind whatever the catalogue held before (and touches no other
    name), while [add_auto_token] on a name the catalogue already holds
    returns the catalogue unchanged. *)
Theorem registration_asymmetric (tokens : TokenType.t) (key literal : string) :
  (TokenType.add_token key literal tokens !! key
     = Some {| td_name := key; td_value := Some literal; td_pattern := None |}
   ∧ ∀ other, other ≠ key →
       TokenType.add_token key literal tokens !! other = tokens !! other)
  ∧ (key ∈ dom tokens → TokenType.add_auto_token key tokens = tokens).
Proof.
  unfold TokenType.add_token, TokenType.add_auto_token.
  repeat split.
  - apply lookup_insert_eq.
  - intros other Hne. by apply lookup_insert_ne.
  - intros Hin. by rewrite decide_True.
Qed.

Lemma registration_asymmetric_witness :
  TokenType.add_auto_token "NUMBER" (TokenType.add_token "NUMBER" "n" ∅)
    = TokenType.add_token "NUMBER" "n" ∅
  ∧ TokenType.add_token "NUMBER" "n" (TokenType.add_token "PLUS" "+" ∅) !! "PLUS"
    = TokenType.add_token "PLUS" "+" ∅ !! "PLUS".
Proof.
  split.
  - apply (registration_asymmetric (TokenType.add_token "NUMBER" "n" ∅) "NUMBER" "n").
    apply elem_of_dom. eexists. apply lookup_insert_eq.
  - apply (registration_asymmetric (TokenType.add_token "PLUS" "+" ∅) "NUMBER" "n").
    discriminate.
Defined.

(** ** Rule registry *)

Lemma setattr_plain key value self :
  plain_slot key →
  Rule.setattr key value self
    = inl {| name := name self; rule_definition := rule_definition self;
             attrs := dict_set key value (attrs self) |}.
Proof.
  unfold plain_slot, Rule.setattr. intros Hplain.
  repeat match goal with
  | |- context [String.eqb key ?s] =>
      destruct (String.eqb_spec key s) as [->|_]; [exfalso; apply Hplain; set_solver|]
  end.
  reflexivity.
Qed.

Lemma setattrs_plain items self :
  plain_slots items →
  ∃ self', Rule.setattrs items self = (self', None)
           ∧ name self' = name self ∧ rule_definition self' = rule_definition self.
Proof.
  unfold plain_slots. revert self.
  induction items as [|[key value] items IH]; intros self Hplain; simpl.
  - by exists self.
  - apply Forall_cons in Hplain as [Hkey Hrest]. simpl in Hkey.
    rewrite (setattr_plain _ _ _ Hkey). cbn iota.
    destruct (IH {| name := name self; rule_definition := rule_definition self;
                    attrs := dict_set key value (attrs self) |} Hrest)
      as (self' & Heq & Hname & Hdef).
    exists self'. by rewrite Heq.
Qed.

Lemma update_definition_plain d self :
  plain_slots d →
  ∃ self', Rule.update_definition d self = (self', None)
           ∧ name self' = name self ∧ rule_definition self' = DefDict d.
Proof.
  intros Hplain. unfold Rule.update_definition.
  destruct (setattrs_plain d
              {| name := name self; rule_definition := DefDict d; attrs := attrs self |}
              Hplain) as (self' & Heq & Hname & Hdef).
  by exists self'.
Qed.

(** C8, as the code has it.  [new_parsing_rule] is not idempotent: every call
    allocates a fresh, empty rule object and binds the name to it, leaving the
    objects already in the heap as they are.  Assignment to a registered name
    creates no rule: it keeps the handle and installs the definition in the
    registered object, so every holder of that handle sees it. *)
Theorem new_parsing_rule_fresh_setitem_in_place (self : Parser) (key : string) :
  (let self' := Parser.new_parsing_rule key self in
   Parser.getitem key self' = Done (length (heap self))
   ∧ heap self !! length (heap self) = None
   ∧ heap self' !! length (heap self) = Some (Rule.init key)
   ∧ ∀ addr rule, heap self !! addr = Some rule → heap self' !! addr = Some rule)
  ∧ (∀ addr rule d,
       rules self !! key = Some addr →
       heap self !! addr = Some rule →
       dict_get "update_definition" (attrs rule) = None →
       plain_slots d →
       ∃ self' rule',
         Parser.setitem key d self = (self', None)
         ∧ rules self' = rules self
         ∧ length (heap self') = length (heap self)
         ∧ heap self' !! addr = Some rule'
         ∧ name rule' = name rule
         ∧ rule_definition rule' = DefDict d
         ∧ ∀ other, other ≠ addr → heap self' !! other = heap self !! other).
Proof.
  split.
  - simpl. unfold Parser.getitem, Parser.new_parsing_rule; simpl.
    rewrite lookup_insert_eq. repeat split.
    + by apply lookup_ge_None.
    + rewrite lookup_app_r by lia. by rewrite Nat.sub_diag.
    + intros addr rule Hrule. by apply lookup_app_l_Some.
  - intros addr rule d Hkey Hrule Hmethod Hplain.
    destruct (update_definition_plain d rule Hplain) as (rule' & Hupd & Hname & Hdef).
    exists {| heap := <[addr := rule']> (heap self); rules := rules self |}, rule'.
    unfold Parser.setitem. rewrite Hkey, Hrule, Hmethod, Hupd. simpl.
    repeat split; try done.
    + apply length_insert.
    + apply list_lookup_insert_eq. by eapply lookup_lt_Some.
    + intros other Hne. by apply list_lookup_insert_ne.
Qed.

Lemma new_parsing_rule_fresh_setitem_in_place_witness :
  ∃ self' rule',
    Parser.setitem "r" [("a", [EOther])] (Parser.new_parsing_rule "r" Parser.init)
      = (self', None)
    ∧ rules self' = rules (Parser.new_parsing_rule "r" Parser.init)
    ∧ length (heap self') = 1
    ∧ heap self' !! 0 = Some rule'
    ∧ name rule' = VStr "r"
    ∧ rule_definition rule' = DefDict [("a", [EOther])]
    ∧ ∀ other, other ≠ 0 →
        heap self' !! other = heap (Parser.new_parsing_rule "r" Parser.init) !! other.
Proof.
  apply (proj2 (new_parsing_rule_fresh_setitem_in_place
                  (Parser.new_parsing_rule "r" Parser.init) "r")
           0 (Rule.init "r") [("a", [EOther])]).
  - reflexivity.
  - reflexivity.
  - reflexivity.
  - unfold plain_slots, plain_slot. simpl. repeat constructor.
    intros Hin. by apply list_elem_of_In in Hin; simpl in Hin; intuition discriminate.
Defined.

(** C8, as stated, fails: a second [new_parsing_rule] on the same name
    creates a second rule object and rebinds the name, and the handle obtained
    after the first call does not see a definition installed later. *)
Lemma new_parsing_rule_not_idempotent :
  let p1 := Parser.new_parsing_rule "r" Parser.init in
  let p2 := Parser.new_parsing_rule "r" p1 in
  let p3 := fst (Parser.setitem "r" [("a", [EOther])] p2) in
  Parser.getitem "r" p1 = Done 0
  ∧ Parser.getitem "r" p2 = Done 1
  ∧ length (heap p1) = 1 ∧ length (heap p2) = 2
  ∧ snd (Parser.setitem "r" [("a", [EOther])] p2) = None
  ∧ rule_definition <$> heap p3 !! 0 = Some (DefDict [])
  ∧ rule_definition <$> heap p3 !! 1 = Some (DefDict [("a", [EOther])]).
Proof. vm_compute. repeat split. Qed.

(** ** Start rule selection *)

(** C7. The start rule that [interpret] selects for text input is the one
    the policy of the specification names. *)
Theorem start_rule_policy (parser_rules : gmap string nat) (tokens : list Token) :
  Interpreter.start_rule parser_rules tokens = Policy.select parser_rules tokens.
Proof.
  unfold Interpreter.start_rule, Policy.select, Policy.registered, Policy.first_kind.
  assert (Hreg : ∀ k : string,
             bool_decide (is_Some (parser_rules !! k)) = bool_decide (k ∈ dom parser_rules)).
  { intros k. apply bool_decide_ext. by rewrite elem_of_dom. }
  rewrite !Hreg.
  destruct (decide ("program" ∈ dom parser_rules)) as [Hp|Hp].
  { by rewrite bool_decide_eq_true_2. }
  rewrite (bool_decide_eq_false_2 _ Hp).
  destruct tokens as [|tok tokens]; simpl.
  - change (String (Str.lower_char "m") _) with "math".
    by repeat case_decide.
  - rewrite !Hreg.
    set (candidate := td_name (tok_type tok)).
    destruct (decide (candidate ∈ dom parser_rules)) as [Hc|Hc].
    { by rewrite bool_decide_eq_true_2. }
    rewrite (bool_decide_eq_false_2 _ Hc).
    destruct (decide (Str.lower candidate ∈ dom parser_rules)) as [Hl|Hl].
    { by rewrite bool_decide_eq_true_2. }
    rewrite (bool_decide_eq_false_2 _ Hl).
    unfold Policy.left_parenthesis, Policy.grouping_rule, Policy.default_rule.
    destruct (String.eqb_spec candidate "LPAREN") as [Heq|Hne].
    + by rewrite (bool_decide_eq_true_2 _ Heq).
    + by rewrite (bool_decide_eq_false_2 _ Hne).
Qed.

(* with the grammar of main.py: a first token of kind PRINT selects the rule
   print through the lowercased name, a first token of kind LPAREN the rule
   paren_math, a first token of kind NUMBER the default *)
Example start_rule_main :
  (λ p, map (λ td, Interpreter.start_rule (rules p) [Examples.token td "" 0])
          [{| td_name := "PRINT"; td_value := Some "print"; td_pattern := None |};
           {| td_name := "LPAREN"; td_value := Some "("; td_pattern := None |};
           Examples.NUMBER]) <$> Main.parser
  = Some ["print"; "paren_math"; "math"].
Proof. vm_compute. reflexivity. Qed.

(** ** The matcher: positions *)

Lemma setattrs_exn items self self' e :
  Rule.setattrs items self = (self', Some e) → ∀ m, e ≠ ValueError m.
Proof.
  revert self. induction items as [|[key value] items IH]; intros self; simpl.
  - discriminate.
  - destruct (Rule.setattr key value self) as [s|e'] eqn:Hset.
    + apply IH.
    + intros [= _ <-] m ->. unfold Rule.setattr in Hset.
      repeat match type of Hset with
      | (if ?b then _ else _) = _ => destruct b; try discriminate
      end.
Qed.

Section MatcherPositions.
Variable rule_heap : list ParsingRule.
Variable tokens : list Token.

Section Body.
Variable parse_rule : ParsingRule → nat → res (option obj * nat).
Hypothesis parse_rule_post :
  ∀ rule pos, pos ≤ length tokens → matcher_post tokens pos (parse_rule rule pos).

Lemma parse_element_post element pos :
  pos ≤ length tokens →
  matcher_post tokens pos (Parser.parse_element rule_heap tokens parse_rule element pos).
Proof.
  intros Hpos. destruct element as [td|addr|d|]; simpl.
  - destruct (tokens !! pos) as [tok|] eqn:Htok; simpl; [|by auto with lia].
    apply lookup_lt_Some in Htok.
    destruct (td_eq (tok_type tok) td); simpl; split; (lia || done).
  - destruct (rule_heap !! addr); [by apply parse_rule_post | done].
  - destruct (Rule.update_definition d (Rule.init "temp")) as [temp_rule [e|]] eqn:Hupd.
    + simpl. destruct e; try done. by eapply setattrs_exn in Hupd.
    + by apply parse_rule_post.
  - by auto with lia.
Qed.

Lemma first_alternative_post alternatives pos :
  pos ≤ length tokens →
  loop_post tokens pos (Parser.first_alternative rule_heap tokens parse_rule alternatives pos).
Proof.
  intros Hpos. induction alternatives as [|alt rest IH]; simpl; [done|].
  pose proof (parse_element_post alt pos Hpos) as Halt.
  destruct (Parser.parse_element rule_heap tokens parse_rule alt pos)
    as [[[parsed|] new_pos]|e|]; simpl in *; try done.
  tauto.
Qed.

Lemma mandatory_parts_post d parts node pos :
  pos ≤ length tokens →
  loop_post tokens pos (Parser.mandatory_parts rule_heap tokens parse_rule d parts node pos).
Proof.
  revert node pos. induction parts as [|part rest IH]; intros node pos Hpos; simpl.
  - lia.
  - destruct (dict_get part d) as [alternatives|]; [|done].
    pose proof (first_alternative_post alternatives pos Hpos) as Halt.
    destruct (Parser.first_alternative rule_heap tokens parse_rule alternatives pos)
      as [[[parsed new_pos]|]|e|]; simpl in *; try done.
    specialize (IH (dict_set part parsed node) new_pos (proj2 Halt)).
    destruct (Parser.mandatory_parts rule_heap tokens parse_rule d rest
                (dict_set part parsed node) new_pos)
      as [[[node' pos']|]|e|]; simpl in *; try done.
    lia.
Qed.

Lemma optional_loop_post n opts opt_results pos :
  pos ≤ length tokens →
  match Parser.optional_loop rule_heap tokens parse_rule n opts opt_results pos with
  | Done (_, pos') => pos ≤ pos' ≤ length tokens
  | Raise (ValueError _) => False
  | _ => True
  end.
Proof.
  revert opt_results pos.
  induction n as [|n IH]; intros opt_results pos Hpos; simpl; [done|].
  pose proof (first_alternative_post opts pos Hpos) as Halt.
  destruct (Parser.first_alternative rule_heap tokens parse_rule opts pos)
    as [[[parsed new_pos]|]|e|]; simpl in *; try done.
  specialize (IH (opt_results ++ [parsed])%list new_pos (proj2 Halt)).
  destruct (Parser.optional_loop rule_heap tokens parse_rule n opts
              (opt_results ++ [parsed]) new_pos) as [[results pos']|e|]; try done.
  lia.
Qed.

Lemma parse_rule_body_post n rule pos :
  pos ≤ length tokens →
  matcher_post tokens pos (Parser.parse_rule_body rule_heap tokens parse_rule n rule pos).
Proof.
  intros Hpos. unfold Parser.parse_rule_body.
  destruct (rule_definition rule) as [d|l]; [|done].
  pose proof (mandatory_parts_post d (Parser.mandatory_keys d)
                [("type", name rule)] pos Hpos) as Hman.
  destruct (Parser.mandatory_parts rule_heap tokens parse_rule d
              (Parser.mandatory_keys d) [("type", name rule)] pos)
    as [[[node' pos']|]|e|]; simpl in *; try done.
  destruct (dict_get "optional" d) as [opts|]; [|done].
  pose proof (optional_loop_post n opts [] pos' (proj2 Hman)) as Hopt.
  destruct (Parser.optional_loop rule_heap tokens parse_rule n opts [] pos')
    as [[results final]|e|]; simpl in *; try done.
  destruct results; simpl; split; (lia || done).
Qed.
End Body.

Lemma _parse_rule_post fuel rule pos :
  pos ≤ length tokens →
  matcher_post tokens pos (Parser._parse_rule rule_heap tokens fuel rule pos).
Proof.
  revert rule pos. induction fuel as [|fuel IH]; intros rule pos Hpos; simpl; [done|].
  by apply parse_rule_body_post.
Qed.

Lemma _parse_element_post fuel element pos :
  pos ≤ length tokens →
  matcher_post tokens pos (Parser._parse_element rule_heap tokens fuel element pos).
Proof.
  intros Hpos. apply parse_element_post; [|done].
  intros rule pos'. apply _parse_rule_post.
Qed.
End MatcherPositions.

(** C10. Entered at a position within the token list, [_parse_rule] and
    [_parse_element] return a position between the entry position and the
    length of the list, and exactly the entry position when they return no
    node. *)
Theorem position_invariant (rule_heap : list ParsingRule) (tokens : list Token)
    (fuel pos : nat) :
  pos ≤ length tokens →
  (∀ rule parsed pos',
     Parser._parse_rule rule_heap tokens fuel rule pos = Done (parsed, pos') →
     pos ≤ pos' ≤ length tokens ∧ (parsed = None → pos' = pos))
  ∧ (∀ element parsed pos',
     Parser._parse_element rule_heap tokens fuel element pos = Done (parsed, pos') →
     pos ≤ pos' ≤ length tokens ∧ (parsed = None → pos' = pos)).
Proof.
  intros Hpos. split.
  - intros rule parsed pos' Heq.
    pose proof (_parse_rule_post rule_heap tokens fuel rule pos Hpos) as Hpost.
    by rewrite Heq in Hpost.
  - intros element parsed pos' Heq.
    pose proof (_parse_element_post rule_heap tokens fuel element pos Hpos) as Hpost.
    by rewrite Heq in Hpost.
Qed.

(** ** The matcher: ordered choice, mandatory slots, optional rounds *)

Lemma dict_get_set_ne {V} (k k' : string) (v : V) (d : list (string * V)) :
  k ≠ k' → dict_get k (dict_set k' v d) = dict_get k d.
Proof.
  intros Hne. induction d as [|[k0 v0] d IH]; simpl.
  - destruct (String.eqb_spec k k'); [done|reflexivity].
  - destruct (String.eqb_spec k' k0) as [->|Hk0]; simpl.
    + destruct (String.eqb_spec k k0); [done|reflexivity].
    + destruct (String.eqb_spec k k0); [reflexivity|apply IH].
Qed.

Lemma mandatory_keys_not_optional d :
  Forall (λ k, k ≠ "optional") (Parser.mandatory_keys d).
Proof.
  unfold Parser.mandatory_keys. apply Forall_forall. intros k Hk.
  by apply list_elem_of_filter in Hk as [Hk _].
Qed.

Section MatcherStructure.
Variable rule_heap : list ParsingRule.
Variable tokens : list Token.
Variable parse_rule : ParsingRule → nat → res (option obj * nat).

#[local] Abbreviation elem := (Parser.parse_element rule_heap tokens parse_rule).
#[local] Abbreviation first_alternative :=
  (Parser.first_alternative rule_heap tokens parse_rule).
#[local] Abbreviation mandatory_parts :=
  (Parser.mandatory_parts rule_heap tokens parse_rule).
#[local] Abbreviation optional_loop :=
  (Parser.optional_loop rule_heap tokens parse_rule).

Lemma first_alternative_none alternatives pos :
  first_alternative alternatives pos = Done None ↔ NoSuccess elem alternatives pos.
Proof.
  unfold NoSuccess. induction alternatives as [|alt rest IH]; simpl.
  - split; [constructor|done].
  - rewrite Forall_cons, <- IH.
    destruct (elem alt pos) as [[[parsed|] new_pos]|e|]; simpl.
    + split; [done|]. by intros [[pos' [=]] _].
    + split; [eauto|tauto].
    + split; [done|]. by intros [[pos' [=]] _].
    + split; [done|]. by intros [[pos' [=]] _].
Qed.

Lemma first_alternative_some alternatives pos parsed new_pos :
  first_alternative alternatives pos = Done (Some (parsed, new_pos))
  ↔ FirstSuccess elem alternatives pos parsed new_pos.
Proof.
  split.
  - induction alternatives as [|alt rest IH]; simpl; [done|].
    destruct (elem alt pos) as [[[parsed'|] pos']|e|] eqn:Halt; simpl; try done.
    + intros [= -> ->]. by apply first_here.
    + intros Hrest. eapply first_later; eauto.
  - induction 1 as [alt rest pos parsed new_pos Halt
                   |alt rest pos pos' parsed new_pos Halt _ IH]; simpl.
    + by rewrite Halt.
    + by rewrite Halt.
Qed.

Lemma mandatory_parts_app d before after node pos :
  mandatory_parts d (before ++ after) node pos
  = (found ← mandatory_parts d before node pos;
     match found with
     | Some (node', pos') => mandatory_parts d after node' pos'
     | None => Done None
     end).
Proof.
  revert node pos. induction before as [|part before IH]; intros node pos; simpl.
  - reflexivity.
  - destruct (dict_get part d) as [alternatives|]; [|reflexivity].
    destruct (first_alternative alternatives pos) as [[[parsed new_pos]|]|e|]; simpl;
      try reflexivity.
    apply IH.
Qed.

Lemma mandatory_parts_keeps_absent d parts node pos node' pos' (k : string) :
  Forall (λ part, part ≠ k) parts →
  dict_get k node = None →
  mandatory_parts d parts node pos = Done (Some (node', pos')) →
  dict_get k node' = None.
Proof.
  revert node pos.
  induction parts as [|part rest IH]; intros node pos Hparts Hnode; simpl.
  - by intros [= <- _].
  - apply Forall_cons in Hparts as [Hpart Hrest].
    destruct (dict_get part d) as [alternatives|]; [|done].
    destruct (first_alternative alternatives pos) as [[[parsed new_pos]|]|e|]; simpl;
      try done.
    apply IH; [done|]. by rewrite dict_get_set_ne.
Qed.

Lemma optional_loop_sound n opts opt_results pos results final :
  optional_loop n opts opt_results pos = Done (results, final) →
  ∃ new, results = (opt_results ++ new)%list
         ∧ Rounds elem opts pos new final ∧ NoSuccess elem opts final.
Proof.
  revert opt_results pos.
  induction n as [|n IH]; intros opt_results pos; simpl; [done|].
  destruct (first_alternative opts pos) as [[[parsed new_pos]|]|e|] eqn:Hfirst; simpl;
    try done.
  - intros Hloop. destruct (IH _ _ Hloop) as (new & -> & Hrounds & Hstop).
    exists (parsed :: new). split; [by rewrite <- app_assoc|]. split; [|done].
    eapply rounds_cons; [|done]. by apply first_alternative_some.
  - intros [= <- <-]. exists []. split; [by rewrite app_nil_r|].
    split; [constructor|]. by apply first_alternative_none.
Qed.

Lemma optional_loop_complete n opts opt_results pos new final :
  Rounds elem opts pos new final →
  NoSuccess elem opts final →
  length new < n →
  optional_loop n opts opt_results pos = Done ((opt_results ++ new)%list, final).
Proof.
  intros Hrounds Hstop. revert n opt_results.
  induction Hrounds as [pos|pos parsed new_pos results final Hfirst _ IH];
    intros n opt_results Hn; (destruct n as [|n]; [simpl in Hn; lia|]); simpl.
  - apply first_alternative_none in Hstop. rewrite Hstop. simpl.
    by rewrite app_nil_r.
  - apply first_alternative_some in Hfirst. rewrite Hfirst. simpl.
    rewrite (IH Hstop n); [|simpl in Hn; lia].
    by rewrite <- app_assoc.
Qed.
End MatcherStructure.

(** C1. When the slots before a mandatory slot have matched, however many
    tokens they consumed, and no alternative of that slot matches at the
    position reached, the rule returns no node and the position at which it
    was entered. *)
Theorem failed_slot_resets_position (rule_heap : list ParsingRule)
    (tokens : list Token) (fuel : nat) (rule : ParsingRule) (d : definition)
    (pos : nat) (before after : list string) (part : string)
    (alternatives : list element) (node1 : ParseNode) (reached : nat) :
  rule_definition rule = DefDict d →
  Parser.mandatory_keys d = (before ++ part :: after)%list →
  Parser.mandatory_parts rule_heap tokens (Parser._parse_rule rule_heap tokens fuel)
    d before [("type", name rule)] pos = Done (Some (node1, reached)) →
  dict_get part d = Some alternatives →
  NoSuccess (Parser._parse_element rule_heap tokens fuel) alternatives reached →
  Parser._parse_rule rule_heap tokens (S fuel) rule pos = Done (None, pos).
Proof.
  intros Hdef Hkeys Hbefore Hpart Hnone. simpl.
  unfold Parser.parse_rule_body. rewrite Hdef, Hkeys, mandatory_parts_app, Hbefore.
  simpl. rewrite Hpart.
  apply first_alternative_none in Hnone. by rewrite Hnone.
Qed.

(** C3. For a rule with an optional slot whose mandatory slots have matched:
    whatever the rule returns is a node, reached by successive rounds, each
    taking the first optional alternative in declared order that matches and
    moving to its position, up to a position at which none matches; the
    results are stored in order under the key optional, and the key is absent
    when there is none.  Conversely such rounds are what the rule returns,
    given fuel for them. *)
Theorem optional_rounds (rule_heap : list ParsingRule) (tokens : list Token)
    (fuel : nat) (rule : ParsingRule) (d : definition) (opts : list element)
    (pos : nat) (node1 : ParseNode) (reached : nat) :
  rule_definition rule = DefDict d →
  dict_get "optional" d = Some opts →
  Parser.mandatory_parts rule_heap tokens (Parser._parse_rule rule_heap tokens fuel)
    d (Parser.mandatory_keys d) [("type", name rule)] pos = Done (Some (node1, reached)) →
  let elem := Parser._parse_element rule_heap tokens fuel in
  let result results :=
    Some (VDict match results with
                | [] => node1
                | _ => dict_set "optional" (VList results) node1
                end) in
  dict_get "optional" node1 = None
  ∧ (∀ parsed final,
       Parser._parse_rule rule_heap tokens (S fuel) rule pos = Done (parsed, final) →
       ∃ results, Rounds elem opts reached results final
                  ∧ NoSuccess elem opts final
                  ∧ parsed = result results)
  ∧ (∀ results final,
       Rounds elem opts reached results final →
       NoSuccess elem opts final →
       length results < fuel →
       Parser._parse_rule rule_heap tokens (S fuel) rule pos
         = Done (result results, final)).
Proof.
  intros Hdef Hopt Hman elem result. split; [|split].
  - eapply mandatory_parts_keeps_absent; [apply mandatory_keys_not_optional| |exact Hman].
    reflexivity.
  - intros parsed final. simpl. unfold Parser.parse_rule_body.
    rewrite Hdef, Hman. simpl. rewrite Hopt.
    destruct (Parser.optional_loop rule_heap tokens _ fuel opts [] reached)
      as [[results final']|e|] eqn:Hloop; simpl; try done.
    apply optional_loop_sound in Hloop as (new & -> & Hrounds & Hstop).
    simpl. destruct new as [|first new]; intros [= <- <-].
    + by exists [].
    + by exists (first :: new).
  - intros results final Hrounds Hstop Hfuel. simpl. unfold Parser.parse_rule_body.
    rewrite Hdef, Hman. simpl. rewrite Hopt.
    rewrite (optional_loop_complete _ _ _ fuel opts [] reached results final Hrounds Hstop Hfuel).
    simpl. by destruct results.
Qed.

(** ** The matcher: more fuel changes no result *)

Lemma res_le_refl {A} (r : res A) : res_le r r.
Proof. by right. Qed.

Lemma res_le_bind {A B} (m1 m2 : res A) (k1 k2 : A → res B) :
  res_le m1 m2 → (∀ a, res_le (k1 a) (k2 a)) → res_le (m1 ≫= k1) (m2 ≫= k2).
Proof.
  intros [->| ->] Hk; [by left|].
  destruct m2 as [a|e|]; simpl; [apply Hk|by right|by left].
Qed.

Section MatcherFuel.
Variable rule_heap : list ParsingRule.
Variable tokens : list Token.

Section Body.
Variables parse_rule1 parse_rule2 : ParsingRule → nat → res (option obj * nat).
Hypothesis parse_rule_le :
  ∀ rule pos, res_le (parse_rule1 rule pos) (parse_rule2 rule pos).

Lemma parse_element_le element pos :
  res_le (Parser.parse_element rule_heap tokens parse_rule1 element pos)
         (Parser.parse_element rule_heap tokens parse_rule2 element pos).
Proof.
  destruct element as [td|addr|d|]; simpl; try apply res_le_refl.
  - destruct (rule_heap !! addr); [apply parse_rule_le|apply res_le_refl].
  - destruct (Rule.update_definition d (Rule.init "temp")) as [temp_rule [e|]];
      [apply res_le_refl|apply parse_rule_le].
Qed.

Lemma first_alternative_le alternatives pos :
  res_le (Parser.first_alternative rule_heap tokens parse_rule1 alternatives pos)
         (Parser.first_alternative rule_heap tokens parse_rule2 alternatives pos).
Proof.
  induction alternatives as [|alt rest IH]; simpl; [apply res_le_refl|].
  apply res_le_bind; [apply parse_element_le|].
  intros [[parsed|] new_pos]; [apply res_le_refl|apply IH].
Qed.

Lemma mandatory_parts_le d parts node pos :
  res_le (Parser.mandatory_parts rule_heap tokens parse_rule1 d parts node pos)
         (Parser.mandatory_parts rule_heap tokens parse_rule2 d parts node pos).
Proof.
  revert node pos. induction parts as [|part rest IH]; intros node pos; simpl;
    [apply res_le_refl|].
  destruct (dict_get part d) as [alternatives|]; [|apply res_le_refl].
  apply res_le_bind; [apply first_alternative_le|].
  intros [[parsed new_pos]|]; [apply IH|apply res_le_refl].
Qed.

Lemma optional_loop_le n m opts opt_results pos :
  n ≤ m →
  res_le (Parser.optional_loop rule_heap tokens parse_rule1 n opts opt_results pos)
         (Parser.optional_loop rule_heap tokens parse_rule2 m opts opt_results pos).
Proof.
  revert m opt_results pos.
  induction n as [|n IH]; intros m opt_results pos Hle; [by left|].
  destruct m as [|m]; [lia|]. simpl.
  apply res_le_bind; [apply first_alternative_le|].
  intros [[parsed new_pos]|]; [apply IH; lia|apply res_le_refl].
Qed.

Lemma parse_rule_body_le n m rule pos :
  n ≤ m →
  res_le (Parser.parse_rule_body rule_heap tokens parse_rule1 n rule pos)
         (Parser.parse_rule_body rule_heap tokens parse_rule2 m rule pos).
Proof.
  intros Hle. unfold Parser.parse_rule_body.
  destruct (rule_definition rule) as [d|l]; [|apply res_le_refl].
  apply res_le_bind; [apply mandatory_parts_le|].
  intros [[node' pos']|]; [|apply res_le_refl].
  destruct (dict_get "optional" d) as [opts|]; [|apply res_le_refl].
  apply res_le_bind; [by apply optional_loop_le|].
  intros [results final]. apply res_le_refl.
Qed.
End Body.

Lemma _parse_rule_le n m rule pos :
  n ≤ m →
  res_le (Parser._parse_rule rule_heap tokens n rule pos)
         (Parser._parse_rule rule_heap tokens m rule pos).
Proof.
  revert m rule pos. induction n as [|n IH]; intros m rule pos Hle; [by left|].
  destruct m as [|m]; [lia|]. simpl.
  apply parse_rule_body_le; [|lia]. intros rule' pos'. apply IH. lia.
Qed.

(* a result obtained with some fuel is the only result any fuel can give *)
Lemma res_le_known {A} (f : nat → res A) fuel0 a :
  (∀ n m, n ≤ m → res_le (f n) (f m)) →
  f fuel0 = Done a → ∀ fuel, res_le (f fuel) (Done a).
Proof.
  intros Hmono Hknown fuel.
  destruct (Hmono fuel0 (Nat.max fuel0 fuel) ltac:(lia)) as [Hout|Heq];
    [congruence|].
  rewrite <- Hknown, Heq. apply Hmono. lia.
Qed.

Lemma first_alternative_known fuel0 alternatives pos found fuel :
  Parser.first_alternative rule_heap tokens (Parser._parse_rule rule_heap tokens fuel0)
    alternatives pos = Done found →
  res_le (Parser.first_alternative rule_heap tokens
            (Parser._parse_rule rule_heap tokens fuel) alternatives pos) (Done found).
Proof.
  intros Hknown.
  apply (res_le_known
           (λ n, Parser.first_alternative rule_heap tokens
                   (Parser._parse_rule rule_heap tokens n) alternatives pos) fuel0);
    [|done].
  intros n m Hle. apply first_alternative_le. intros rule pos'. by apply _parse_rule_le.
Qed.

Lemma mandatory_parts_known fuel0 d parts node pos found fuel :
  Parser.mandatory_parts rule_heap tokens (Parser._parse_rule rule_heap tokens fuel0)
    d parts node pos = Done found →
  res_le (Parser.mandatory_parts rule_heap tokens
            (Parser._parse_rule rule_heap tokens fuel) d parts node pos) (Done found).
Proof.
  intros Hknown.
  apply (res_le_known
           (λ n, Parser.mandatory_parts rule_heap tokens
                   (Parser._parse_rule rule_heap tokens n) d parts node pos) fuel0);
    [|done].
  intros n m Hle. apply mandatory_parts_le. intros rule pos'. by apply _parse_rule_le.
Qed.

(* a round that succeeds in place repeats for ever *)
Lemma optional_loop_diverges fuel0 opts pos results stuck parsed :
  Rounds (Parser._parse_element rule_heap tokens fuel0) opts pos results stuck →
  FirstSuccess (Parser._parse_element rule_heap tokens fuel0) opts stuck parsed stuck →
  ∀ fuel n opt_results,
    Parser.optional_loop rule_heap tokens (Parser._parse_rule rule_heap tokens fuel)
      n opts opt_results pos = OutOfFuel.
Proof.
  intros Hrounds Hstuck fuel.
  induction Hrounds as [pos|pos parsed1 new_pos results final Hfirst _ IH].
  - apply first_alternative_some in Hstuck.
    induction n as [|n IHn]; intros opt_results; simpl; [done|].
    destruct (first_alternative_known _ _ _ _ fuel Hstuck) as [-> | ->]; [done|].
    simpl. apply IHn.
  - apply first_alternative_some in Hfirst.
    intros [|n] opt_results; simpl; [done|].
    destruct (first_alternative_known _ _ _ _ fuel Hfirst) as [-> | ->]; [done|].
    simpl. by apply IH.
Qed.

Lemma _parse_rule_diverges fuel0 rule d opts pos node1 reached results stuck parsed :
  rule_definition rule = DefDict d →
  dict_get "optional" d = Some opts →
  Parser.mandatory_parts rule_heap tokens (Parser._parse_rule rule_heap tokens fuel0)
    d (Parser.mandatory_keys d) [("type", name rule)] pos
    = Done (Some (node1, reached)) →
  Rounds (Parser._parse_element rule_heap tokens fuel0) opts reached results stuck →
  FirstSuccess (Parser._parse_element rule_heap tokens fuel0) opts stuck parsed stuck →
  ∀ fuel, Parser._parse_rule rule_heap tokens fuel rule pos = OutOfFuel.
Proof.
  intros Hdef Hopt Hman Hrounds Hstuck [|fuel]; simpl; [done|].
  unfold Parser.parse_rule_body. rewrite Hdef.
  destruct (mandatory_parts_known _ _ _ _ _ _ fuel Hman) as [-> | ->]; [done|].
  simpl. rewrite Hopt.
  by rewrite (optional_loop_diverges fuel0 opts reached results stuck parsed).
Qed.
End MatcherFuel.

Lemma position_invariant_witness :
  (0 ≤ 1 ≤ 2 ∧ (Some (VDict [("type", VStr "n"); ("a", Examples.leaf Examples.NUMBER "3")])
                  = None → 1 = 0))
  ∧ (0 ≤ 0 ≤ 2 ∧ (@None obj = None → 0 = 0)).
Proof.
  split.
  - apply (proj1 (position_invariant [] Examples.two_numbers 1 0 ltac:(simpl; lia))
             (Examples.rule_of "n" [("a", [ETok Examples.NUMBER])])).
    reflexivity.
  - apply (proj2 (position_invariant [] Examples.two_numbers 1 0 ltac:(simpl; lia))
             (ETok Examples.PLUS)).
    reflexivity.
Defined.

Lemma failed_slot_resets_position_witness :
  Parser._parse_rule [] Examples.two_numbers 1
    (Examples.rule_of "pair" Examples.pair_definition) 0 = Done (None, 0).
Proof.
  apply (failed_slot_resets_position [] Examples.two_numbers 0
           (Examples.rule_of "pair" Examples.pair_definition) Examples.pair_definition
           0 ["a"] [] "b" [ETok Examples.PLUS]
           [("type", VStr "pair"); ("a", Examples.leaf Examples.NUMBER "3")] 1).
  - reflexivity.
  - reflexivity.
  - reflexivity.
  - reflexivity.
  - constructor; [|constructor]. exists 1. reflexivity.
Defined.

Lemma optional_rounds_witness :
  Parser._parse_rule [] Examples.number_plus_plus 4
    (Examples.rule_of "run" Examples.run_definition) 0
  = Done (Some (VDict [("type", VStr "run"); ("a", Examples.leaf Examples.NUMBER "3");
                       ("optional", VList [Examples.leaf Examples.PLUS "+";
                                           Examples.leaf Examples.PLUS "+"])]), 3).
Proof.
  apply (proj2 (proj2 (optional_rounds [] Examples.number_plus_plus 3
           (Examples.rule_of "run" Examples.run_definition) Examples.run_definition
           [ETok Examples.PLUS] 0
           [("type", VStr "run"); ("a", Examples.leaf Examples.NUMBER "3")] 1
           eq_refl eq_refl eq_refl))
           [Examples.leaf Examples.PLUS "+"; Examples.leaf Examples.PLUS "+"] 3).
  - eapply rounds_cons; [by apply first_here|].
    eapply rounds_cons; [by apply first_here|]. apply rounds_nil.
  - constructor; [|constructor]. exists 3. reflexivity.
  - simpl. lia.
Defined.

(** ** parse *)

(** C2. For a registered start rule, [parse] raises the ValueError
    Parsing failed exactly when the matcher, entered at position 0, returns
    no node or returns a position before the end of the tokens.  With the
    grammar of main.py, interpreting the text 3 + 4 5 ends in that error: the
    text is tokenized into four tokens, the start rule is math, and math
    matches with three tokens consumed. *)
Theorem parse_fails_exactly_when :
  (∀ (self : Parser) (tokens : list Token) (start_rule_name : string)
     (addr : nat) (rule : ParsingRule) (fuel : nat),
     rules self !! start_rule_name = Some addr →
     heap self !! addr = Some rule →
     Parser.parse fuel self tokens start_rule_name = Raise (ValueError Parsing_failed)
     ↔ ∃ parsed pos,
         Parser._parse_rule (heap self) tokens fuel rule 0 = Done (parsed, pos)
         ∧ (parsed = None ∨ pos < length tokens))
  ∧ (Interpreter.parse_text 4 Main.lexer Main.parser "3 + 4 5"
     = Raise (ValueError Parsing_failed)
     ∧ ∃ lexer parser tokens addr rule tree,
         Main.setup = Done (lexer, parser)
         ∧ Lexer.tokenize 4 lexer "3 + 4 5" = Done tokens
         ∧ length tokens = 4
         ∧ Interpreter.start_rule (rules parser) tokens = "math"
         ∧ rules parser !! "math" = Some addr
         ∧ heap parser !! addr = Some rule
         ∧ Parser._parse_rule (heap parser) tokens 4 rule 0 = Done (Some tree, 3)).
Proof.
  split; [|split; [by vm_compute|]].
  2: { eexists _, _, _, _, _, _. split; [vm_compute; reflexivity|].
       split; [vm_compute; reflexivity|]. split; [reflexivity|].
       split; [vm_compute; reflexivity|]. split; [vm_compute; reflexivity|].
       split; [reflexivity|]. vm_compute. reflexivity. }
  intros self tokens start_rule_name addr rule fuel Hstart Hrule.
  unfold Parser.parse. rewrite Hstart, Hrule.
  pose proof (_parse_rule_post (heap self) tokens fuel rule 0 ltac:(lia)) as Hpost.
  destruct (Parser._parse_rule (heap self) tokens fuel rule 0)
    as [[[tree|] pos]|e|]; simpl in *.
  - destruct Hpost as [[_ Hpos] _].
    destruct (decide (pos ≠ length tokens)) as [Hne|Heq].
    + split; [|done]. intros _. exists (Some tree), pos. split; [done|]. right. lia.
    + split; [done|]. intros (parsed & pos' & [= <- <-] & [?|?]); [done|].
      exfalso. apply Heq. lia.
  - split; [|done]. intros _. exists None, pos. by split; [|left].
  - split.
    + intros [= ->]. done.
    + by intros (parsed & pos' & ? & _).
  - split; [done|]. by intros (parsed & pos' & ? & _).
Qed.

Lemma parse_fails_exactly_when_witness :
  Parser.parse 1 (Parser.setitem "pair" Examples.pair_definition Parser.init).1
    Examples.two_numbers "pair" = Raise (ValueError Parsing_failed).
Proof.
  apply (proj2 (proj1 parse_fails_exactly_when
                  (Parser.setitem "pair" Examples.pair_definition Parser.init).1
                  Examples.two_numbers "pair" 0
                  (Examples.rule_of "pair" Examples.pair_definition) 1
                  ltac:(vm_compute; reflexivity) ltac:(reflexivity))).
  exists None, 0. split; [reflexivity|]. left. reflexivity.
Defined.

(** ** Definitions are installed unchecked *)

(** C4, as the code has it.  Assignment of a definition performs no check of
    its optional slot: with ordinary slot names the definition is installed
    as it is.  When parsing then reaches an optional round whose first
    matching alternative consumes no token, the same round repeats and
    [parse] returns nothing, whatever the fuel. *)
Theorem unchecked_optional_loops_forever (self : Parser) (key : string)
    (d : definition) (opts : list element) :
  plain_slots d →
  (∀ addr, rules self !! key = Some addr →
     ∃ rule, heap self !! addr = Some rule
             ∧ dict_get "update_definition" (attrs rule) = None) →
  dict_get "optional" d = Some opts →
  ∃ self' addr rule',
    Parser.setitem key d self = (self', None)
    ∧ rules self' !! key = Some addr
    ∧ heap self' !! addr = Some rule'
    ∧ rule_definition rule' = DefDict d
    ∧ ∀ tokens fuel0 node1 reached results stuck parsed,
        Parser.mandatory_parts (heap self') tokens
          (Parser._parse_rule (heap self') tokens fuel0)
          d (Parser.mandatory_keys d) [("type", name rule')] 0
          = Done (Some (node1, reached)) →
        Rounds (Parser._parse_element (heap self') tokens fuel0) opts reached results stuck →
        FirstSuccess (Parser._parse_element (heap self') tokens fuel0) opts stuck parsed stuck →
        ∀ fuel, Parser.parse fuel self' tokens key = OutOfFuel.
Proof.
  intros Hplain Hreg Hopt.
  assert (∃ self' addr rule',
            Parser.setitem key d self = (self', None)
            ∧ rules self' !! key = Some addr
            ∧ heap self' !! addr = Some rule'
            ∧ rule_definition rule' = DefDict d) as (self' & addr & rule' & Hset & Hkey & Hrule & Hdef).
  { unfold Parser.setitem. destruct (rules self !! key) as [addr|] eqn:Hkey.
    - destruct (Hreg addr eq_refl) as (rule & Hrule & Hmethod).
      destruct (update_definition_plain d rule Hplain) as (rule' & Hupd & _ & Hdef).
      rewrite Hrule, Hmethod, Hupd.
      eexists _, addr, rule'. repeat split; simpl; try done.
      apply list_lookup_insert_eq. by eapply lookup_lt_Some.
    - destruct (update_definition_plain d (Rule.init key) Hplain)
        as (rule' & Hupd & _ & Hdef).
      rewrite Hupd. eexists _, (length (heap self)), rule'. repeat split; simpl; try done.
      + apply lookup_insert_eq.
      + rewrite lookup_app_r by lia. by rewrite Nat.sub_diag. }
  exists self', addr, rule'. repeat split; try done.
  intros tokens fuel0 node1 reached results stuck parsed Hman Hrounds Hstuck fuel.
  unfold Parser.parse. rewrite Hkey, Hrule.
  by rewrite (_parse_rule_diverges (heap self') tokens fuel0 rule' d opts 0 node1
                reached results stuck parsed Hdef Hopt Hman Hrounds Hstuck fuel).
Qed.

Lemma unchecked_optional_loops_forever_witness :
  ∃ self',
    Parser.setitem "r" Examples.empty_optional Parser.init = (self', None)
    ∧ ∀ fuel, Parser.parse fuel self' [] "r" = OutOfFuel.
Proof.
  destruct (unchecked_optional_loops_forever Parser.init "r" Examples.empty_optional
              [EDict []]) as (self' & addr & rule' & Hset & Hkey & Hrule & Hdef & Hloop).
  - unfold plain_slots, plain_slot. simpl. repeat constructor.
    intros Hin. by apply list_elem_of_In in Hin; simpl in Hin; intuition discriminate.
  - intros addr. simpl. by rewrite lookup_empty.
  - reflexivity.
  - exists self'. split; [exact Hset|].
    unfold Parser.setitem in Hset. simpl in Hset. rewrite lookup_empty in Hset.
    simpl in Hset. injection Hset as <-. simpl in Hkey, Hrule.
    rewrite lookup_insert_eq in Hkey. injection Hkey as <-. injection Hrule as <-.
    apply (Hloop [] 1 [("type", VStr "r")] 0 [] 0 (VDict [("type", VStr "temp")])).
    + reflexivity.
    + apply rounds_nil.
    + by apply first_here.
Defined.

(** C4, as stated, fails: a definition whose optional slot holds an
    alternative that matches without consuming a token (the empty inline rule)
    is installed without any exception, and parsing with it does not return. *)
Lemma zero_token_optional_accepted :
  (Parser.setitem "r" Examples.empty_optional Parser.init).2 = None
  ∧ (∀ tokens pos,
       Parser._parse_element (heap (Parser.setitem "r" Examples.empty_optional Parser.init).1)
         tokens 1 (EDict []) pos = Done (Some (VDict [("type", VStr "temp")]), pos))
  ∧ ∀ fuel,
      Parser.parse fuel (Parser.setitem "r" Examples.empty_optional Parser.init).1 [] "r"
      = OutOfFuel.
Proof.
  split; [reflexivity|]. split; [reflexivity|].
  intros fuel.
  pose proof (_parse_rule_diverges
                (heap (Parser.setitem "r" Examples.empty_optional Parser.init).1) [] 1
                (Examples.rule_of "r" Examples.empty_optional)
                Examples.empty_optional [EDict []] 0
                [("type", VStr "r")] 0 [] 0 (VDict [("type", VStr "temp")])
                eq_refl eq_refl eq_refl (rounds_nil _ _ _)
                (first_here _ (EDict []) [] 0 (VDict [("type", VStr "temp")]) 0 eq_refl)
                fuel) as Hloop.
  unfold Parser.parse.
  replace (rules (Parser.setitem "r" Examples.empty_optional Parser.init).1 !! "r")
    with (Some 0) by (vm_compute; reflexivity).
  change (heap (Parser.setitem "r" Examples.empty_optional Parser.init).1 !! 0)
    with (Some (Examples.rule_of "r" Examples.empty_optional)).
  cbv beta iota. by rewrite Hloop.
Qed.

(** ** Lexer *)

Lemma match_spaces_skip s position :
  match Re.match_spaces s with
  | Some ws_end => position + ws_end
  | None => position
  end = position + String.length (Str.span Str.isspace s).1.
Proof.
  unfold Re.match_spaces. destruct (Str.span Str.isspace s).1; simpl; lia.
Qed.

Lemma match_nonempty p s : Re.match_ p s ≠ Some "".
Proof.
  destruct p; simpl.
  - destruct (Str.span Str.isdigit s) as [[|d int] [|c rest]]; try done.
    destruct (Ascii.eqb_spec c "."%char) as [->|Hc].
    + by destruct (Str.span Str.isdigit rest).1.
    + by destruct c as [[] [] [] [] [] [] [] []].
  - destruct s as [|c s]; [done|]. destruct (Re.isquote c); [|done].
    by destruct (Str.span (λ x, negb (Re.isquote x)) s) as [body [|q rest]].
  - destruct s as [|c s]; [done|]. by destruct (Str.isidstart c).
  - by destruct (Str.span Str.isword s).1.
Qed.

Lemma match_literal_find token_defs text position :
  position ≤ String.length text →
  Lexer.match_literal token_defs text position
  = List.find (λ k, String.prefix k.2 (Str.drop position text))
              (LexSpec.literal_kinds token_defs).
Proof.
  intros Hpos. unfold LexSpec.literal_kinds.
  induction token_defs as [|td token_defs IH]; simpl; [done|].
  destruct (td_value td) as [literal|]; simpl; [|apply IH].
  unfold Str.startswith. rewrite (leb_correct _ _ Hpos). simpl.
  destruct (String.prefix literal (Str.drop position text)); [done|apply IH].
Qed.

Lemma match_auto_head token_defs text position :
  Forall LexSpec.kind token_defs →
  Lexer.match_auto token_defs text position
  = Done (head (omap (λ k, (λ value, (k.1, value))
                             <$> LexSpec.nonempty_match k.2 (Str.drop position text))
                     (LexSpec.pattern_kinds token_defs))).
Proof.
  unfold LexSpec.pattern_kinds.
  induction 1 as [|td token_defs Hkind _ IH]; simpl; [done|].
  destruct (td_value td) as [literal|] eqn:Hvalue; simpl; [apply IH|].
  destruct (td_pattern td) as [p|] eqn:Hp; [|by destruct (Hkind Hvalue)].
  simpl. unfold LexSpec.nonempty_match.
  pose proof (match_nonempty p (Str.drop position text)) as Hne.
  destruct (Re.match_ p (Str.drop position text)) as [[|c value]|]; simpl; done.
Qed.

Lemma tokenize_loop_scan fuel token_defs text tokens position :
  Forall LexSpec.kind token_defs →
  Lexer.tokenize_loop fuel token_defs text tokens position
  = (rest ← LexSpec.scan fuel token_defs text position; Done (tokens ++ rest)%list).
Proof.
  intros Hkinds. revert tokens position.
  induction fuel as [|fuel IH]; intros tokens position; simpl.
  - destruct (position <? String.length text); simpl; [done|by rewrite app_nil_r].
  - destruct (position <? String.length text); simpl; [|by rewrite app_nil_r].
    rewrite match_spaces_skip. fold (LexSpec.skip_whitespace text position).
    set (position' := LexSpec.skip_whitespace text position).
    destruct (String.length text <=? position') eqn:Hend; simpl;
      [by rewrite app_nil_r|].
    apply leb_complete_conv in Hend.
    unfold LexSpec.next_token.
    rewrite <- match_literal_find by lia.
    destruct (Lexer.match_literal token_defs text position') as [[td literal]|].
    + rewrite IH. destruct (LexSpec.scan fuel token_defs text _); simpl; try done.
      by rewrite <- app_assoc.
    + rewrite match_auto_head by done. simpl.
      destruct (head _) as [[td value]|]; [|done].
      rewrite IH. destruct (LexSpec.scan fuel token_defs text _); simpl; try done.
      by rewrite <- app_assoc.
Qed.

Lemma rstrip_head c s :
  Str.isspace c = false → ∃ r, Str.rstrip (String c s) = String c r.
Proof.
  intros Hc. simpl. rewrite Hc. destruct (Str.rstrip s); eauto.
Qed.

Lemma strip_head c s :
  Str.isspace c = false → ∃ r, Str.strip (String c s) = String c r.
Proof.
  intros Hc. unfold Str.strip. simpl. rewrite Hc. by apply rstrip_head.
Qed.

Lemma length_lstrip s : String.length (Str.lstrip s) ≤ String.length s.
Proof.
  induction s as [|c s IH]; simpl; [lia|]. destruct (Str.isspace c); simpl; lia.
Qed.

Lemma length_rstrip s : String.length (Str.rstrip s) ≤ String.length s.
Proof.
  induction s as [|c s IH]; simpl; [lia|].
  destruct (Str.rstrip s); simpl in *; [destruct (Str.isspace c); simpl; lia|lia].
Qed.

Lemma strip_fixed_head c s :
  Str.strip (String c s) = String c s → Str.isspace c = false.
Proof.
  intros Hfix. destruct (Str.isspace c) eqn:Hc; [|done].
  apply (f_equal String.length) in Hfix. unfold Str.strip in Hfix. simpl in Hfix.
  rewrite Hc in Hfix.
  pose proof (length_rstrip (Str.lstrip s)). pose proof (length_lstrip s). lia.
Qed.

Lemma prefix_refl s : String.prefix s s = true.
Proof.
  induction s as [|c s IH]; simpl; [done|]. by destruct (ascii_dec c c).
Qed.

Lemma match_spaces_nonspace c s :
  Str.isspace c = false → Re.match_spaces (String c s) = None.
Proof. intros Hc. unfold Re.match_spaces. simpl. by rewrite Hc. Qed.

(* the first iteration of the loop on a text that begins with a non-blank *)
Lemma tokenize_loop_first fuel token_defs c s tokens :
  Str.isspace c = false →
  Lexer.tokenize_loop (S fuel) token_defs (String c s) tokens 0
  = match Lexer.match_literal token_defs (String c s) 0 with
    | Some (token_def, literal) =>
        Lexer.tokenize_loop fuel token_defs (String c s)
          (tokens ++ [{| tok_type := token_def; tok_value := literal; tok_position := 0 |}])
          (String.length literal)
    | None =>
        found ← Lexer.match_auto token_defs (String c s) 0;
        match found with
        | Some (token_def, value) =>
            Lexer.tokenize_loop fuel token_defs (String c s)
              (tokens ++ [{| tok_type := token_def; tok_value := value; tok_position := 0 |}])
              (String.length value)
        | None => Raise (ValueError (Unexpected_token 0 (String c s)))
        end
    end.
Proof.
  intros Hc. cbn [Lexer.tokenize_loop]. cbn [String.length Nat.ltb Nat.leb Str.drop].
  rewrite (match_spaces_nonspace c s Hc). reflexivity.
Qed.

Lemma match_literal_unregistered token_defs c s :
  Forall (λ td, LexSpec.can_start td c = false) token_defs →
  Lexer.match_literal token_defs (String c s) 0 = None.
Proof.
  induction 1 as [|td token_defs Hstart _ IH]; simpl; [done|].
  unfold LexSpec.can_start in Hstart.
  destruct (td_value td) as [[|c' literal]|]; [done| |done].
  unfold Str.startswith. simpl.
  destruct (ascii_dec c' c) as [->|_]; [|done].
  by rewrite Ascii.eqb_refl in Hstart.
Qed.

Lemma match_auto_unregistered token_defs c s :
  Forall (λ td, LexSpec.can_start td c = false) token_defs →
  Lexer.match_auto token_defs (String c s) 0 = Done None.
Proof.
  induction 1 as [|td token_defs Hstart _ IH]; simpl; [done|].
  unfold LexSpec.can_start in Hstart.
  destruct (td_value td) as [literal|]; [done|].
  destruct (td_pattern td) as [[]|]; simpl; rewrite ?Hstart; done.
Qed.

(** C5. On a catalogue of kinds, [tokenize] computes what the lexer of the
    specification computes: trim, then from each position skip blanks, take
    the first literal kind in registration order whose value is a prefix,
    failing that the first pattern kind whose pattern matches a non-empty
    prefix, and otherwise raise the error that carries the position.  A text
    whose first character is not a blank and begins no token of the catalogue
    raises that error with position 0. *)
Theorem tokenize_refines_specification (token_defs : list TokenDefinition) :
  (∀ fuel text,
     Forall LexSpec.kind token_defs →
     Lexer.tokenize fuel token_defs text = LexSpec.tokenize fuel token_defs text)
  ∧ (∀ fuel c rest,
       LexSpec.unregistered token_defs c →
       Lexer.tokenize (S fuel) token_defs (String c rest)
       = Raise (ValueError (Unexpected_token 0 (Str.strip (String c rest))))).
Proof.
  split.
  - intros fuel text Hkinds. unfold Lexer.tokenize, LexSpec.tokenize.
    rewrite tokenize_loop_scan by done.
    by destruct (LexSpec.scan fuel token_defs (Str.strip text) 0).
  - intros fuel c rest [Hc Hstart]. unfold Lexer.tokenize.
    destruct (strip_head c rest Hc) as [r ->].
    rewrite tokenize_loop_first by done.
    rewrite match_literal_unregistered by done.
    by rewrite match_auto_unregistered.
Qed.

Lemma tokenize_refines_specification_witness :
  Lexer.tokenize 3 [Examples.PLUS; Examples.NUMBER] " 3 + 4 "
    = LexSpec.tokenize 3 [Examples.PLUS; Examples.NUMBER] " 3 + 4 "
  ∧ Lexer.tokenize 1 [Examples.PLUS; Examples.NUMBER] "@ 3 "
    = Raise (ValueError (Unexpected_token 0 (Str.strip "@ 3 "))).
Proof.
  split.
  - apply (proj1 (tokenize_refines_specification [Examples.PLUS; Examples.NUMBER])).
    repeat constructor; unfold LexSpec.kind; simpl; discriminate.
  - apply (proj2 (tokenize_refines_specification [Examples.PLUS; Examples.NUMBER])).
    split; [reflexivity|]. repeat constructor.
Defined.

Lemma match_literal_first before td after literal :
  td_value td = Some literal →
  Forall (λ t, ∀ l, td_value t = Some l → String.prefix l literal = false) before →
  Lexer.match_literal (before ++ td :: after) literal 0 = Some (td, literal).
Proof.
  intros Hvalue. induction 1 as [|t before Hprefix _ IH]; simpl.
  - rewrite Hvalue. unfold Str.startswith. simpl. by rewrite prefix_refl.
  - destruct (td_value t) as [l|]; [|apply IH].
    unfold Str.startswith. simpl. by rewrite (Hprefix l eq_refl).
Qed.

Lemma tokenize_loop_end fuel token_defs text tokens position :
  String.length text ≤ position →
  Lexer.tokenize_loop fuel token_defs text tokens position = Done tokens.
Proof.
  intros Hend. apply Nat.ltb_ge in Hend. destruct fuel; simpl; by rewrite Hend.
Qed.

(** C6, as the code has it.  For a literal kind of the lexer whose value is
    not empty, has no blank at either end, and has no prefix among the values
    of the literal kinds registered before it, [tokenize] on that value
    returns exactly one token: that kind, that text, offset 0. *)
Theorem literal_text_single_token (before after : list TokenDefinition)
    (td : TokenDefinition) (literal : string) (fuel : nat) :
  td_value td = Some literal →
  literal ≠ "" →
  Str.strip literal = literal →
  Forall (λ t, ∀ l, td_value t = Some l → String.prefix l literal = false) before →
  Lexer.tokenize (S fuel) (before ++ td :: after) literal
  = Done [{| tok_type := td; tok_value := literal; tok_position := 0 |}].
Proof.
  intros Hvalue Hne Hstrip Hbefore. unfold Lexer.tokenize. rewrite Hstrip.
  destruct literal as [|c s]; [done|].
  rewrite tokenize_loop_first by by apply (strip_fixed_head c s).
  rewrite match_literal_first by done.
  by apply tokenize_loop_end.
Qed.

Lemma literal_text_single_token_witness :
  Lexer.tokenize 1 [Examples.ASSIGN; Examples.PLUS; Examples.NUMBER] "+"
  = Done [Examples.token Examples.PLUS "+" 0].
Proof.
  apply (literal_text_single_token [Examples.ASSIGN] [Examples.NUMBER] Examples.PLUS "+" 0).
  - reflexivity.
  - discriminate.
  - reflexivity.
  - constructor; [|constructor]. intros l [= <-]. reflexivity.
Defined.

(** C6, as stated, fails: with the literal kind = registered before the
    literal kind ==, the text == is tokenized into two tokens of the first
    kind, never into one token of the second. *)
Lemma literal_text_first_match_wins :
  Examples.EQUALS ∈ [Examples.ASSIGN; Examples.EQUALS]
  ∧ td_value Examples.EQUALS = Some "=="
  ∧ Lexer.tokenize 2 [Examples.ASSIGN; Examples.EQUALS] "=="
    = Done [Examples.token Examples.ASSIGN "=" 0; Examples.token Examples.ASSIGN "=" 1]
  ∧ ∀ fuel, Lexer.tokenize fuel [Examples.ASSIGN; Examples.EQUALS] "=="
            ≠ Done [Examples.token Examples.EQUALS "==" 0].
Proof.
  split; [set_solver|]. split; [reflexivity|]. split; [reflexivity|].
  intros [|[|[|fuel]]] Heq; vm_compute in Heq; discriminate Heq.
Qed.

(* an empty literal yields no token, and the text is trimmed before a literal
   with a blank at an end is looked for *)
Example empty_literal_no_token (fuel : nat) :
  Lexer.tokenize fuel [{| td_name := "EMPTY"; td_value := Some ""; td_pattern := None |}] ""
  = Done [].
Proof. by destruct fuel. Qed.

Example blank_ended_literal_trimmed :
  Lexer.tokenize 1
    [Examples.PLUS; {| td_name := "PLUS_"; td_value := Some "+ "; td_pattern := None |}] "+ "
  = Done [Examples.token Examples.PLUS "+" 0].
Proof. reflexivity. Qed.

(** * Further properties *)

(** ** Token catalogue *)

(** X1. [add_auto_token] on a new name stores a pattern kind under that name,
    with the pattern the name selects (NUMBER, STRING, IDENTIFIER, and the
    word pattern for every other name); on any catalogue it changes no entry
    that exists, and a second call with the same name changes nothing. *)
Theorem add_auto_token_new_and_idempotent (tokens : TokenType.t) (key : string) :
  (tokens !! key = None →
   ∃ p, TokenType.add_auto_token key tokens !! key
          = Some {| td_name := key; td_value := None; td_pattern := Some p |}
        ∧ (key = "NUMBER" → p = re_number)
        ∧ (key = "STRING" → p = re_string)
        ∧ (key = "IDENTIFIER" → p = re_identifier)
        ∧ (key ≠ "NUMBER" → key ≠ "STRING" → key ≠ "IDENTIFIER" → p = re_word))
  ∧ (∀ other td, tokens !! other = Some td →
       TokenType.add_auto_token key tokens !! other = Some td)
  ∧ TokenType.add_auto_token key (TokenType.add_auto_token key tokens)
    = TokenType.add_auto_token key tokens.
Proof.
  unfold TokenType.add_auto_token. split; [|split].
  - intros Hnew. rewrite decide_False by (by apply not_elem_of_dom_2).
    eexists. rewrite lookup_insert_eq. split; [reflexivity|].
    repeat split.
    + by intros ->.
    + by intros ->.
    + by intros ->.
    + intros H1 H2 H3.
      by rewrite (proj2 (String.eqb_neq _ _) H1), (proj2 (String.eqb_neq _ _) H2),
                 (proj2 (String.eqb_neq _ _) H3).
  - intros other td Hother. case_decide; [done|].
    rewrite lookup_insert_ne; [done|]. intros <-.
    apply H. apply elem_of_dom. eauto.
  - destruct (decide (key ∈ dom tokens)) as [Hin|Hin]; [by rewrite decide_True|].
    rewrite decide_True; [done|]. rewrite dom_insert_L. set_solver.
Qed.

Lemma add_auto_token_new_and_idempotent_witness :
  (∃ p, TokenType.add_auto_token "NUMBER" (TokenType.add_token "PLUS" "+" ∅) !! "NUMBER"
          = Some {| td_name := "NUMBER"; td_value := None; td_pattern := Some p |}
        ∧ p = re_number)
  ∧ TokenType.add_auto_token "NUMBER" (TokenType.add_token "PLUS" "+" ∅) !! "PLUS"
    = Some Examples.PLUS.
Proof.
  split.
  - destruct (proj1 (add_auto_token_new_and_idempotent
                       (TokenType.add_token "PLUS" "+" ∅) "NUMBER"))
      as (p & Hp & Hnumber & _); [vm_compute; reflexivity|].
    exists p. split; [exact Hp|]. by apply Hnumber.
  - apply (proj1 (proj2 (add_auto_token_new_and_idempotent
                           (TokenType.add_token "PLUS" "+" ∅) "NUMBER"))).
    reflexivity.
Defined.

(** X2. Every catalogue built from the empty one by [add_token] and
    [add_auto_token] keeps the invariant that an entry carries its key as name
    and is either a literal kind or a pattern kind; so what [getitem] returns
    from such a catalogue is a kind of the lexer named by its key. *)
Theorem catalogue_invariant :
  catalogue_ok ∅
  ∧ (∀ tokens key literal,
       catalogue_ok tokens → catalogue_ok (TokenType.add_token key literal tokens))
  ∧ (∀ tokens key,
       catalogue_ok tokens → catalogue_ok (TokenType.add_auto_token key tokens))
  ∧ (∀ tokens key td,
       catalogue_ok tokens → TokenType.getitem key tokens = Done td →
       td_name td = key ∧ LexSpec.kind td).
Proof.
  split; [|split; [|split]].
  - intros key td. by rewrite lookup_empty.
  - intros tokens key literal Hok k td. unfold TokenType.add_token.
    destruct (decide (key = k)) as [->|Hne].
    + rewrite lookup_insert_eq. intros [= <-]. simpl. split; [done|]. left. eauto.
    + rewrite lookup_insert_ne by done. apply Hok.
  - intros tokens key Hok k td. unfold TokenType.add_auto_token.
    case_decide; [apply Hok|].
    destruct (decide (key = k)) as [->|Hne].
    + rewrite lookup_insert_eq. intros [= <-]. simpl. split; [done|]. right. eauto.
    + rewrite lookup_insert_ne by done. apply Hok.
  - intros tokens key td Hok Hget. unfold TokenType.getitem in Hget.
    destruct (tokens !! key) as [td'|] eqn:Hkey; [|done]. injection Hget as ->.
    destruct (Hok key td Hkey) as [Hname Hkind]. split; [done|].
    intros Hvalue. destruct Hkind as [[[l Hl] _]|[_ [p Hp]]]; congruence.
Qed.

Lemma catalogue_invariant_witness :
  catalogue_ok Main.tokentype
  ∧ (td_name Examples.NUMBER = "NUMBER" ∧ LexSpec.kind Examples.NUMBER).
Proof.
  destruct catalogue_invariant as (Hempty & Htoken & Hauto & Hget).
  assert (catalogue_ok Main.tokentype) as Hmain.
  { unfold Main.tokentype.
    apply Htoken, Hauto, Hauto, Htoken, Htoken, Htoken, Htoken, Htoken, Htoken, Hempty. }
  split; [exact Hmain|].
  apply (Hget Main.tokentype "NUMBER" Examples.NUMBER Hmain).
  vm_compute. reflexivity.
Defined.

(** ** Lexer: blank input *)

Lemma lstrip_blank s : blank s = true → Str.lstrip s = "".
Proof.
  induction s as [|c s IH]; simpl; [done|].
  destruct (Str.isspace c); simpl; [exact IH|done].
Qed.

(** X3. A text made of blanks only, the empty text included, is tokenized
    into the empty token list, whatever the catalogue and with any fuel. *)
Theorem tokenize_blank (fuel : nat) (token_defs : list TokenDefinition) (text : string) :
  blank text = true → Lexer.tokenize fuel token_defs text = Done [].
Proof.
  intros Hblank. unfold Lexer.tokenize, Str.strip.
  rewrite (lstrip_blank text Hblank). simpl. by destruct fuel.
Qed.

Lemma tokenize_blank_witness :
  Lexer.tokenize 0 [Examples.PLUS] "   " = Done [].
Proof. apply (tokenize_blank 0 [Examples.PLUS] "   "). reflexivity. Defined.

(** ** Lexer: the tokens tile the text *)

Lemma append_cons c (a b : string) : String c a ++ b = String c (a ++ b).
Proof. reflexivity. Qed.

Lemma append_empty_l (b : string) : "" ++ b = b.
Proof. reflexivity. Qed.

Ltac append_simpl := rewrite ?append_cons, ?append_empty_l in *.

Lemma append_assoc (a b c : string) : (a ++ b) ++ c = a ++ (b ++ c).
Proof. induction a as [|x a IH]; append_simpl; [done|]. by rewrite IH. Qed.

Lemma append_empty_r (a : string) : a ++ "" = a.
Proof. induction a as [|x a IH]; append_simpl; [done|]. by rewrite IH. Qed.

Lemma length_append (a b : string) :
  String.length (a ++ b) = String.length a + String.length b.
Proof. induction a as [|x a IH]; append_simpl; simpl; [done|]. by rewrite IH. Qed.

Lemma drop_append (a b : string) : Str.drop (String.length a) (a ++ b) = b.
Proof. induction a as [|x a IH]; append_simpl; simpl; [done|exact IH]. Qed.

Lemma length_drop n s : String.length (Str.drop n s) = String.length s - n.
Proof.
  revert s. induction n as [|n IH]; intros [|c s]; simpl; try done; lia.
Qed.

Lemma span_append p s : s = (Str.span p s).1 ++ (Str.span p s).2.
Proof.
  induction s as [|c s IH]; simpl; [done|].
  destruct (p c); [|done]. destruct (Str.span p s) as [run rest]. simpl in *.
  append_simpl. by rewrite <- IH.
Qed.

Lemma span_blank s : blank (Str.span Str.isspace s).1 = true.
Proof.
  induction s as [|c s IH]; simpl; [done|].
  destruct (Str.isspace c) eqn:Hc; [|done].
  destruct (Str.span Str.isspace s) as [run rest]. simpl in *. by rewrite Hc.
Qed.

Lemma prefix_append l s : String.prefix l s = true → ∃ rest, s = l ++ rest.
Proof.
  revert s. induction l as [|a l IH]; intros s; [by exists s|].
  destruct s as [|b s]; simpl; [done|].
  destruct (ascii_dec a b) as [->|]; [|done].
  intros Hprefix. destruct (IH s Hprefix) as [rest ->]. by exists rest.
Qed.

Lemma match_append p s value : Re.match_ p s = Some value → ∃ rest, s = value ++ rest.
Proof.
  destruct p; simpl.
  - pose proof (span_append Str.isdigit s) as Hs.
    destruct (Str.span Str.isdigit s) as [int after]. simpl in Hs.
    assert (∀ v, Some int = Some v → ∃ rest, s = v ++ rest) as Hint.
    { intros v [= <-]. by exists after. }
    destruct int as [|d int]; [done|].
    destruct after as [|c after]; [apply Hint|].
    destruct (Ascii.eqb_spec c "."%char) as [->|Hc].
    + pose proof (span_append Str.isdigit after) as Hafter.
      destruct (Str.span Str.isdigit after) as [frac rest]. simpl in *.
      destruct frac as [|f frac]; [apply Hint|].
      intros [= <-]. exists rest. by rewrite Hs, Hafter, append_assoc.
    + destruct c as [[] [] [] [] [] [] [] []]; try apply Hint. done.
  - destruct s as [|c s]; [done|]. destruct (Re.isquote c); [|done].
    pose proof (span_append (λ x, negb (Re.isquote x)) s) as Hs.
    destruct (Str.span (λ x, negb (Re.isquote x)) s) as [body [|q rest]]; [done|].
    simpl in Hs. intros [= <-]. exists rest.
    by rewrite append_cons, append_assoc, Hs.
  - destruct s as [|c s]; [done|]. destruct (Str.isidstart c); [|done].
    intros [= <-]. exists (Str.span Str.isword s).2.
    by rewrite append_cons, <- span_append.
  - pose proof (span_append Str.isword s) as Hs.
    destruct (Str.span Str.isword s) as [[|c run] rest]; [done|].
    intros [= <-]. by exists rest.
Qed.

Lemma match_literal_some token_defs text position td literal :
  Lexer.match_literal token_defs text position = Some (td, literal) →
  td ∈ token_defs ∧ td_value td = Some literal
  ∧ Str.startswith text literal position = true.
Proof.
  induction token_defs as [|t token_defs IH]; simpl; [done|].
  destruct (td_value t) as [l|] eqn:Hvalue.
  - destruct (Str.startswith text l position) eqn:Hstart.
    + intros [= <- <-]. split; [by left|done].
    + intros Hrest. destruct (IH Hrest) as (? & ? & ?). split; [by right|done].
  - intros Hrest. destruct (IH Hrest) as (? & ? & ?). split; [by right|done].
Qed.

Lemma match_auto_some token_defs text position td value :
  Lexer.match_auto token_defs text position = Done (Some (td, value)) →
  td ∈ token_defs ∧ td_value td = None
  ∧ ∃ p, td_pattern td = Some p ∧ Re.match_ p (Str.drop position text) = Some value.
Proof.
  induction token_defs as [|t token_defs IH]; simpl; [done|].
  destruct (td_value t) as [l|] eqn:Hvalue.
  - intros Hrest. destruct (IH Hrest) as (? & ? & ?). split; [by right|done].
  - destruct (td_pattern t) as [p|] eqn:Hp; [|done].
    destruct (Re.match_ p (Str.drop position text)) as [v|] eqn:Hmatch.
    + intros [= <- <-]. split; [by left|]. split; [done|]. by exists p.
    + intros Hrest. destruct (IH Hrest) as (? & ? & ?). split; [by right|done].
Qed.

Lemma tokenize_loop_unfold fuel token_defs text tokens position :
  Lexer.tokenize_loop (S fuel) token_defs text tokens position
  = if position <? String.length text then
      let position' := LexSpec.skip_whitespace text position in
      if String.length text <=? position' then Done tokens
      else
        match Lexer.match_literal token_defs text position' with
        | Some (token_def, literal) =>
            Lexer.tokenize_loop fuel token_defs text
              (tokens ++ [{| tok_type := token_def; tok_value := literal;
                             tok_position := position' |}])
              (position' + String.length literal)
        | None =>
            found ← Lexer.match_auto token_defs text position';
            match found with
            | Some (token_def, value) =>
                Lexer.tokenize_loop fuel token_defs text
                  (tokens ++ [{| tok_type := token_def; tok_value := value;
                                 tok_position := position' |}])
                  (position' + String.length value)
            | None =>
                Raise (ValueError (Unexpected_token position' (Str.drop position' text)))
            end
        end
    else Done tokens.
Proof.
  cbn [Lexer.tokenize_loop]. unfold LexSpec.skip_whitespace.
  by rewrite match_spaces_skip.
Qed.

Lemma tokenize_loop_tiling fuel token_defs pre cur acc tokens :
  Lexer.tokenize_loop fuel token_defs (pre ++ cur) acc (String.length pre) = Done tokens →
  ∃ new, tokens = (acc ++ new)%list ∧ Tiling token_defs cur (String.length pre) new.
Proof.
  revert pre cur acc. induction fuel as [|fuel IH]; intros pre cur acc.
  - simpl. rewrite length_append.
    destruct (String.length pre <? String.length pre + String.length cur) eqn:Hlt;
      [done|].
    intros [= <-]. exists []. split; [by rewrite app_nil_r|].
    apply tiling_end. apply Nat.ltb_ge in Hlt. destruct cur; [done|simpl in Hlt; lia].
  - rewrite tokenize_loop_unfold. rewrite length_append.
    destruct (String.length pre <? String.length pre + String.length cur) eqn:Hlt.
    2: { intros [= <-]. exists []. split; [by rewrite app_nil_r|].
         apply tiling_end. apply Nat.ltb_ge in Hlt.
         destruct cur; [done|simpl in Hlt; lia]. }
    cbv zeta. unfold LexSpec.skip_whitespace. rewrite drop_append.
    pose proof (span_append Str.isspace cur) as Hcur.
    pose proof (span_blank cur) as Hgap.
    destruct (Str.span Str.isspace cur) as [gap cur']. simpl in Hcur, Hgap. simpl fst.
    subst cur.
    replace (String.length pre + String.length gap)
      with (String.length (pre ++ gap)) by apply length_append.
    rewrite <- (append_assoc pre gap cur').
    destruct (String.length pre + String.length (gap ++ cur') <=?
              String.length (pre ++ gap)) eqn:Hend.
    { intros [= <-]. exists []. split; [by rewrite app_nil_r|].
      apply tiling_end. apply Nat.leb_le in Hend. rewrite !length_append in Hend.
      destruct cur'; [by rewrite append_empty_r|simpl in Hend; lia]. }
    assert (∀ td value,
              td ∈ token_defs →
              lexeme td value (Str.drop (String.length value) cur') →
              String.prefix value cur' = true ∨ (∃ r, cur' = value ++ r) →
              Lexer.tokenize_loop fuel token_defs ((pre ++ gap) ++ cur')
                (acc ++ [{| tok_type := td; tok_value := value;
                            tok_position := String.length (pre ++ gap) |}])
                (String.length (pre ++ gap) + String.length value) = Done tokens →
              ∃ new, tokens = (acc ++ new)%list
                     ∧ Tiling token_defs (gap ++ cur') (String.length pre) new) as Hstep.
    { intros td value Htd Hlexeme Hsplit Hloop.
      assert (∃ rest, cur' = value ++ rest) as [rest ->].
      { destruct Hsplit as [Hprefix|Hr]; [by apply prefix_append|done]. }
      rewrite drop_append in Hlexeme.
      rewrite <- (append_assoc (pre ++ gap) value rest) in Hloop.
      rewrite <- length_append in Hloop.
      destruct (IH _ _ _ Hloop) as (new & -> & Htiling).
      eexists (_ :: new). split; [by rewrite <- app_assoc|].
      rewrite !length_append in *.
      by apply tiling_token. }
    destruct (Lexer.match_literal token_defs ((pre ++ gap) ++ cur')
                (String.length (pre ++ gap))) as [[td literal]|] eqn:Hliteral.
    + apply match_literal_some in Hliteral as (Htd & Hvalue & Hstart).
      unfold Str.startswith in Hstart. apply andb_true_iff in Hstart as [_ Hprefix].
      rewrite drop_append in Hprefix.
      apply Hstep; [done| |by left].
      left. destruct (prefix_append _ _ Hprefix) as [rest ->]. done.
    + destruct (Lexer.match_auto token_defs ((pre ++ gap) ++ cur')
                  (String.length (pre ++ gap))) as [[[td value]|]|e|] eqn:Hauto;
        simpl; try done.
      apply match_auto_some in Hauto as (Htd & Hvalue & p & Hp & Hmatch).
      rewrite drop_append in Hmatch.
      destruct (match_append _ _ _ Hmatch) as [rest Hrest].
      apply Hstep; [done| |by right; exists rest].
      right. split; [done|]. exists p. split; [done|].
      rewrite Hrest at 1. rewrite drop_append. by rewrite <- Hrest.
Qed.

(** X4. The tokens that [tokenize] returns tile the trimmed text: read left
    to right from offset 0, the text is a blank run, the text of the first
    token, a blank run, the text of the second token, and so on to a final
    blank run.  Each token's kind is a member of the lexer's list, its text is
    the literal value of a literal kind or what the pattern of a pattern kind
    matches at that place, and its position is the offset of its text. *)
Theorem tokenize_tiles_text (fuel : nat) (token_defs : list TokenDefinition)
    (text : string) (tokens : list Token) :
  Lexer.tokenize fuel token_defs text = Done tokens →
  Tiling token_defs (Str.strip text) 0 tokens.
Proof.
  unfold Lexer.tokenize. intros Hloop.
  destruct (tokenize_loop_tiling fuel token_defs "" (Str.strip text) [] tokens Hloop)
    as (new & -> & Htiling).
  exact Htiling.
Qed.

Lemma tokenize_tiles_text_witness :
  Tiling [Examples.PLUS; Examples.NUMBER] "3 +4" 0
    [Examples.token Examples.NUMBER "3" 0; Examples.token Examples.PLUS "+" 2;
     Examples.token Examples.NUMBER "4" 3].
Proof.
  apply (tokenize_tiles_text 3 [Examples.PLUS; Examples.NUMBER] " 3 +4 ").
  reflexivity.
Defined.

(** ** Lexer: termination *)

Lemma length_strip s : String.length (Str.strip s) ≤ String.length s.
Proof.
  unfold Str.strip. pose proof (length_rstrip (Str.lstrip s)).
  pose proof (length_lstrip s). lia.
Qed.

Lemma match_auto_kinds token_defs text position :
  Forall LexSpec.kind token_defs →
  ∃ found, Lexer.match_auto token_defs text position = Done found.
Proof. intros Hkinds. rewrite match_auto_head by done. eauto. Qed.

Lemma tokenize_loop_terminates token_defs text :
  Forall LexSpec.kind token_defs →
  Forall (λ td, td_value td ≠ Some "") token_defs →
  ∀ fuel tokens position,
    String.length text - position < fuel →
    (∃ result, Lexer.tokenize_loop fuel token_defs text tokens position = Done result)
    ∨ (∃ pos rest, Lexer.tokenize_loop fuel token_defs text tokens position
                   = Raise (ValueError (Unexpected_token pos rest))).
Proof.
  intros Hkinds Hnonempty fuel.
  induction fuel as [|fuel IH]; intros tokens position Hfuel; [lia|].
  rewrite tokenize_loop_unfold.
  destruct (position <? String.length text) eqn:Hlt; [|by left; eauto].
  apply Nat.ltb_lt in Hlt. cbv zeta.
  assert (position ≤ LexSpec.skip_whitespace text position) as Hskip
    by (unfold LexSpec.skip_whitespace; lia).
  destruct (String.length text <=? LexSpec.skip_whitespace text position);
    [by left; eauto|].
  destruct (Lexer.match_literal token_defs text (LexSpec.skip_whitespace text position))
    as [[td literal]|] eqn:Hliteral.
  - apply match_literal_some in Hliteral as (Htd & Hvalue & _).
    apply IH. rewrite Forall_forall in Hnonempty. specialize (Hnonempty td Htd).
    destruct literal; [congruence|simpl; lia].
  - destruct (match_auto_kinds token_defs text
                (LexSpec.skip_whitespace text position) Hkinds) as [found Hauto].
    rewrite Hauto. simpl. destruct found as [[td value]|]; [|by right; eauto].
    apply match_auto_some in Hauto as (_ & _ & p & _ & Hmatch).
    apply IH.
    pose proof (match_nonempty p
                  (Str.drop (LexSpec.skip_whitespace text position) text)) as Hne.
    destruct value; [by rewrite Hmatch in Hne|simpl; lia].
Qed.

Lemma tokenize_returns (fuel : nat) (token_defs : list TokenDefinition) (text : string) :
  Forall LexSpec.kind token_defs →
  Forall (λ td, td_value td ≠ Some "") token_defs →
  String.length text < fuel →
  (∃ tokens, Lexer.tokenize fuel token_defs text = Done tokens)
  ∨ (∃ position rest,
       Lexer.tokenize fuel token_defs text
       = Raise (ValueError (Unexpected_token position rest))).
Proof.
  intros Hkinds Hnonempty Hfuel. unfold Lexer.tokenize.
  apply tokenize_loop_terminates; [done|done|].
  pose proof (length_strip text). lia.
Qed.

(** X5. When every entry of the lexer's list is a literal or a pattern kind
    and no literal value is empty, [tokenize] returns: with more fuel than the
    text has characters the result is a token list or the ValueError for an
    unexpected token, never an exhausted budget and no other exception. *)
Theorem tokenize_terminates (fuel : nat) (token_defs : list TokenDefinition)
    (text : string) :
  Forall LexSpec.kind token_defs →
  Forall (λ td, td_value td ≠ Some "") token_defs →
  String.length text < fuel →
  (∃ tokens, Lexer.tokenize fuel token_defs text = Done tokens)
  ∨ (∃ position rest,
       Lexer.tokenize fuel token_defs text
       = Raise (ValueError (Unexpected_token position rest))).
Proof. apply tokenize_returns. Qed.

Lemma tokenize_terminates_witness :
  (∃ tokens, Lexer.tokenize 4 [Examples.PLUS; Examples.NUMBER] "3+4" = Done tokens)
  ∨ (∃ position rest,
       Lexer.tokenize 4 [Examples.PLUS; Examples.NUMBER] "3+4"
       = Raise (ValueError (Unexpected_token position rest))).
Proof.
  apply (tokenize_terminates 4 [Examples.PLUS; Examples.NUMBER] "3+4").
  - repeat constructor; unfold LexSpec.kind; simpl; discriminate.
  - repeat constructor; simpl; discriminate.
  - simpl. lia.
Defined.

Lemma rstrip_suffix_not_blank s n :
  n < String.length (Str.rstrip s) → blank (Str.drop n (Str.rstrip s)) = false.
Proof.
  revert n. induction s as [|c s IH]; intros n; simpl; [lia|].
  destruct (Str.rstrip s) as [|c' r] eqn:Hr.
  - destruct (Str.isspace c) eqn:Hc; simpl; [lia|].
    destruct n as [|n]; simpl; [by rewrite Hc|lia].
  - destruct n as [|n]; simpl.
    + intros _. pose proof (IH 0 ltac:(simpl; lia)) as Hrest. simpl in Hrest.
      rewrite Hrest. apply andb_false_r.
    + intros Hn. apply IH. simpl. lia.
Qed.

Lemma match_literal_empty before td after text position :
  Forall (λ t, td_value t = None) before →
  td_value td = Some "" →
  position ≤ String.length text →
  Lexer.match_literal (before ++ td :: after) text position = Some (td, "").
Proof.
  intros Hbefore Hvalue Hpos.
  induction Hbefore as [|t before Ht _ IH]; simpl.
  - rewrite Hvalue. unfold Str.startswith. rewrite (leb_correct _ _ Hpos).
    by destruct (Str.drop position text).
  - by rewrite Ht.
Qed.

(** X6. When the first literal kind of the lexer's list has the empty string
    as its value, [tokenize] does not return on any text that is not blank:
    the empty literal matches at the first token position without advancing,
    and the loop repeats. *)
Theorem empty_literal_loops_forever (before after : list TokenDefinition)
    (td : TokenDefinition) (text : string) :
  Forall (λ t, td_value t = None) before →
  td_value td = Some "" →
  Str.strip text ≠ "" →
  ∀ fuel, Lexer.tokenize fuel (before ++ td :: after) text = OutOfFuel.
Proof.
  intros Hbefore Hvalue Hne fuel. unfold Lexer.tokenize.
  assert (∀ tokens position,
            position < String.length (Str.strip text) →
            Lexer.tokenize_loop fuel (before ++ td :: after) (Str.strip text)
              tokens position = OutOfFuel) as Hloop.
  { induction fuel as [|fuel IH]; intros tokens position Hlt.
    - simpl. by rewrite (proj2 (Nat.ltb_lt _ _) Hlt).
    - rewrite tokenize_loop_unfold. rewrite (proj2 (Nat.ltb_lt _ _) Hlt). cbv zeta.
      assert (LexSpec.skip_whitespace (Str.strip text) position
              < String.length (Str.strip text)) as Hskip.
      { unfold LexSpec.skip_whitespace.
        pose proof (rstrip_suffix_not_blank (Str.lstrip text) position Hlt) as Hsuffix.
        fold (Str.strip text) in Hsuffix.
        pose proof (span_append Str.isspace (Str.drop position (Str.strip text))) as Hsplit.
        pose proof (span_blank (Str.drop position (Str.strip text))) as Hgap.
        pose proof (length_drop position (Str.strip text)) as Hlen.
        destruct (Str.span Str.isspace (Str.drop position (Str.strip text)))
          as [gap rest]. simpl in *.
        rewrite Hsplit, length_append in Hlen.
        destruct rest as [|c rest]; [|simpl in Hlen; lia].
        rewrite append_empty_r in Hsplit. congruence. }
      rewrite (proj2 (Nat.leb_gt _ _) Hskip).
      rewrite match_literal_empty by (done || lia).
      simpl String.length. rewrite Nat.add_0_r. by apply IH. }
  apply Hloop. destruct (Str.strip text); [done|simpl; lia].
Qed.

Lemma empty_literal_loops_forever_witness :
  Lexer.tokenize 100
    [Examples.NUMBER; {| td_name := "EMPTY"; td_value := Some ""; td_pattern := None |};
     Examples.PLUS] "3" = OutOfFuel.
Proof.
  apply (empty_literal_loops_forever [Examples.NUMBER] [Examples.PLUS]
           {| td_name := "EMPTY"; td_value := Some ""; td_pattern := None |} "3").
  - repeat constructor.
  - reflexivity.
  - discriminate.
Defined.

(** ** Rule registry: attributes and failed assignments *)

Lemma dict_get_absent {V} (k : string) (d : list (string * V)) :
  k ∉ dict_keys d → dict_get k d = None.
Proof.
  induction d as [|[k' v] d IH]; simpl; [done|].
  intros Hk. apply not_elem_of_cons in Hk as [Hne Hk].
  destruct (String.eqb_spec k k'); [done|by apply IH].
Qed.

Lemma dict_get_set_eq {V} (k : string) (v : V) (d : list (string * V)) :
  dict_get k (dict_set k v d) = Some v.
Proof.
  induction d as [|[k' v'] d IH]; simpl.
  - by rewrite String.eqb_refl.
  - destruct (String.eqb_spec k k') as [->|Hne]; simpl.
    + by rewrite String.eqb_refl.
    + by rewrite (proj2 (String.eqb_neq _ _) Hne).
Qed.

Lemma dict_get_some_key {V} (k : string) (v : V) (d : list (string * V)) :
  dict_get k d = Some v → (k, v) ∈ d.
Proof.
  induction d as [|[k' v'] d IH]; simpl; [done|].
  destruct (String.eqb_spec k k') as [->|Hne].
  - intros [= ->]. by left.
  - intros Hd. right. by apply IH.
Qed.

Lemma setattrs_attrs items self self' :
  plain_slots items →
  NoDup (dict_keys items) →
  Rule.setattrs items self = (self', None) →
  ∀ k, dict_get k (attrs self')
       = match dict_get k items with
         | Some alternatives => Some alternatives
         | None => dict_get k (attrs self)
         end.
Proof.
  unfold plain_slots. revert self.
  induction items as [|[key value] items IH]; intros self Hplain Hnodup; simpl.
  - by intros [= <-].
  - apply Forall_cons in Hplain as [Hkey Hrest]. simpl in Hkey.
    apply NoDup_cons in Hnodup as [Hfresh Hnodup].
    rewrite (setattr_plain _ _ _ Hkey). cbn iota. intros Hset k.
    rewrite (IH _ Hrest Hnodup Hset k). simpl.
    destruct (String.eqb_spec k key) as [->|Hne].
    + rewrite (dict_get_absent key items Hfresh). apply dict_get_set_eq.
    + destruct (dict_get k items); [done|]. by apply dict_get_set_ne.
Qed.

(** X7. For a definition with ordinary, distinct slot names,
    [update_definition] raises nothing and leaves the rule with: its name,
    the definition as given, and one attribute per slot holding that slot's
    alternatives; attributes that an earlier definition created under other
    names are still there. *)
Theorem update_definition_attributes (d : definition) (self : ParsingRule) :
  plain_slots d →
  NoDup (dict_keys d) →
  ∃ self',
    Rule.update_definition d self = (self', None)
    ∧ name self' = name self
    ∧ rule_definition self' = DefDict d
    ∧ ∀ k, dict_get k (attrs self')
           = match dict_get k d with
             | Some alternatives => Some alternatives
             | None => dict_get k (attrs self)
             end.
Proof.
  intros Hplain Hnodup.
  destruct (update_definition_plain d self Hplain) as (self' & Hupd & Hname & Hdef).
  exists self'. repeat split; try done.
  intros k. unfold Rule.update_definition in Hupd.
  by rewrite (setattrs_attrs d _ self' Hplain Hnodup Hupd k).
Qed.

Lemma update_definition_attributes_witness :
  ∃ self',
    Rule.update_definition [("b", [EOther])]
      (Examples.rule_of "pair" Examples.pair_definition) = (self', None)
    ∧ rule_definition self' = DefDict [("b", [EOther])]
    ∧ dict_get "a" (attrs self') = Some [ETok Examples.NUMBER]
    ∧ dict_get "b" (attrs self') = Some [EOther].
Proof.
  destruct (update_definition_attributes [("b", [EOther])]
              (Examples.rule_of "pair" Examples.pair_definition))
    as (self' & Hupd & _ & Hdef & Hattrs).
  - unfold plain_slots, plain_slot. simpl. repeat constructor.
    intros Hin. by apply list_elem_of_In in Hin; simpl in Hin; intuition discriminate.
  - simpl. repeat constructor. by intros Hin%elem_of_nil.
  - exists self'. split; [exact Hupd|]. split; [exact Hdef|].
    split; [exact (Hattrs "a")|exact (Hattrs "b")].
Defined.

Lemma setattrs_app items1 items2 self :
  Rule.setattrs (items1 ++ items2) self
  = match Rule.setattrs items1 self with
    | (self', None) => Rule.setattrs items2 self'
    | failed => failed
    end.
Proof.
  revert self. induction items1 as [|[key value] items1 IH]; intros self; simpl; [done|].
  destruct (Rule.setattr key value self) as [self'|e]; [apply IH|done].
Qed.

(** X8. An assignment whose definition has a slot called type raises
    AttributeError (type is a read-only property of the rule), but not before
    the rule is registered and holds the whole new definition: the parser is
    left changed, with the rule reachable under its name. *)
Theorem failed_assignment_still_installs (self : Parser) (key : string)
    (before after : definition) (alternatives : list element) :
  plain_slots before →
  (∀ addr, rules self !! key = Some addr →
     ∃ rule, heap self !! addr = Some rule
             ∧ dict_get "update_definition" (attrs rule) = None) →
  let d := (before ++ ("type", alternatives) :: after)%list in
  ∃ self' addr rule',
    Parser.setitem key d self = (self', Some (AttributeError "type"))
    ∧ Parser.getitem key self' = Done addr
    ∧ heap self' !! addr = Some rule'
    ∧ rule_definition rule' = DefDict d.
Proof.
  intros Hplain Hreg d.
  assert (∀ rule, ∃ rule',
            Rule.update_definition d rule = (rule', Some (AttributeError "type"))
            ∧ rule_definition rule' = DefDict d) as Hupd.
  { intros rule. unfold Rule.update_definition, d. rewrite setattrs_app.
    destruct (setattrs_plain before
                {| name := name rule; rule_definition := DefDict d; attrs := attrs rule |}
                Hplain) as (rule1 & Hset & _ & Hdef).
    fold d. rewrite Hset. simpl. exists rule1. by split. }
  unfold Parser.setitem, Parser.getitem.
  destruct (rules self !! key) as [addr|] eqn:Hkey.
  - destruct (Hreg addr eq_refl) as (rule & Hrule & Hmethod).
    destruct (Hupd rule) as (rule' & Hset & Hdef).
    rewrite Hrule, Hmethod, Hset.
    exists {| heap := <[addr := rule']> (heap self); rules := rules self |}, addr, rule'.
    simpl. rewrite Hkey. repeat split; try done.
    apply list_lookup_insert_eq. by eapply lookup_lt_Some.
  - destruct (Hupd (Rule.init key)) as (rule' & Hset & Hdef).
    rewrite Hset.
    exists {| heap := heap self ++ [rule'];
              rules := <[key := length (heap self)]> (rules self) |},
           (length (heap self)), rule'.
    simpl. rewrite lookup_insert_eq. repeat split; try done.
    rewrite lookup_app_r by lia. by rewrite Nat.sub_diag.
Qed.

Lemma failed_assignment_still_installs_witness :
  ∃ self' addr rule',
    Parser.setitem "r" [("a", [EOther]); ("type", []); ("b", [])] Parser.init
      = (self', Some (AttributeError "type"))
    ∧ Parser.getitem "r" self' = Done addr
    ∧ heap self' !! addr = Some rule'
    ∧ rule_definition rule' = DefDict [("a", [EOther]); ("type", []); ("b", [])].
Proof.
  apply (failed_assignment_still_installs Parser.init "r" [("a", [EOther])]
           [("b", [])] []).
  - unfold plain_slots, plain_slot. simpl. repeat constructor.
    intros Hin. by apply list_elem_of_In in Hin; simpl in Hin; intuition discriminate.
  - intros addr. simpl. by rewrite lookup_empty.
Defined.

(** ** The matcher: shape of the node, size of the optional list *)

Lemma dict_set_fresh {V} (k : string) (v : V) (d : list (string * V)) :
  k ∉ dict_keys d → dict_set k v d = (d ++ [(k, v)])%list.
Proof.
  induction d as [|[k' v'] d IH]; simpl; [done|].
  intros Hk. apply not_elem_of_cons in Hk as [Hne Hk].
  rewrite (proj2 (String.eqb_neq _ _) Hne). by rewrite IH.
Qed.

Lemma dict_keys_app {V} (d1 d2 : list (string * V)) :
  dict_keys (d1 ++ d2) = (dict_keys d1 ++ dict_keys d2)%list.
Proof. apply map_app. Qed.

Lemma dict_get_app_l {V} (k : string) (v : V) (d1 d2 : list (string * V)) :
  dict_get k d1 = Some v → dict_get k (d1 ++ d2) = Some v.
Proof.
  induction d1 as [|[k' v'] d1 IH]; simpl; [done|].
  destruct (String.eqb k k'); [done|apply IH].
Qed.

Lemma mandatory_keys_distinct d :
  distinct_slots d →
  NoDup (Parser.mandatory_keys d) ∧ "type" ∉ Parser.mandatory_keys d.
Proof.
  intros [Hnodup Htype]. unfold Parser.mandatory_keys. split.
  - by apply NoDup_filter.
  - intros Hin. apply list_elem_of_filter in Hin as [_ Hin]. done.
Qed.

Section MatcherShape.
Variable rule_heap : list ParsingRule.
Variable tokens : list Token.
Variable parse_rule : ParsingRule → nat → res (option obj * nat).

Lemma mandatory_parts_keys d parts node pos node' pos' :
  NoDup (dict_keys node ++ parts) →
  Parser.mandatory_parts rule_heap tokens parse_rule d parts node pos
    = Done (Some (node', pos')) →
  dict_keys node' = (dict_keys node ++ parts)%list
  ∧ ∀ k v, dict_get k node = Some v → dict_get k node' = Some v.
Proof.
  revert node pos. induction parts as [|part rest IH]; intros node pos Hnodup; simpl.
  - intros [= <- _]. by rewrite app_nil_r.
  - destruct (dict_get part d) as [alternatives|]; [|done].
    destruct (Parser.first_alternative rule_heap tokens parse_rule alternatives pos)
      as [[[parsed new_pos]|]|e|]; simpl; try done.
    assert (part ∉ dict_keys node) as Hfresh.
    { apply NoDup_app in Hnodup as (_ & Hdisjoint & _).
      intros Hin. apply (Hdisjoint part Hin). by left. }
    rewrite (dict_set_fresh part parsed node Hfresh).
    intros Hrest. apply IH in Hrest as [Hkeys Hget].
    + rewrite Hkeys, dict_keys_app. simpl. split; [by rewrite <- app_assoc|].
      intros k v Hk. apply Hget. by apply dict_get_app_l.
    + rewrite dict_keys_app. simpl. by rewrite <- app_assoc.
Qed.

Hypothesis parse_rule_post :
  ∀ rule pos, pos ≤ length tokens → matcher_post tokens pos (parse_rule rule pos).

Lemma optional_loop_stuck n opts opt_results pos parsed :
  Parser.first_alternative rule_heap tokens parse_rule opts pos = Done (Some (parsed, pos)) →
  Parser.optional_loop rule_heap tokens parse_rule n opts opt_results pos = OutOfFuel.
Proof.
  intros Hstuck. revert opt_results.
  induction n as [|n IH]; intros opt_results; simpl; [done|].
  rewrite Hstuck. simpl. apply IH.
Qed.

Lemma optional_loop_bound n opts opt_results pos results final :
  pos ≤ length tokens →
  Parser.optional_loop rule_heap tokens parse_rule n opts opt_results pos
    = Done (results, final) →
  length results + pos ≤ length opt_results + final.
Proof.
  revert opt_results pos.
  induction n as [|n IH]; intros opt_results pos Hpos; simpl; [done|].
  pose proof (first_alternative_post rule_heap tokens parse_rule parse_rule_post
                opts pos Hpos) as Hpost.
  destruct (Parser.first_alternative rule_heap tokens parse_rule opts pos)
    as [[[parsed new_pos]|]|e|] eqn:Hfirst; simpl in *; try done.
  - intros Hloop. destruct (decide (new_pos = pos)) as [->|Hne].
    + by rewrite (optional_loop_stuck n opts _ pos parsed Hfirst) in Hloop.
    + apply IH in Hloop; [|lia]. rewrite length_app in Hloop. simpl in Hloop. lia.
  - intros [= <- <-]. lia.
Qed.
End MatcherShape.

(** X9. For a rule whose definition has distinct slot names, none called
    type, every node the rule returns maps type to the rule's name and has as
    keys, in this order: type, the mandatory slots in declaration order, and
    optional exactly when some optional round succeeded, holding the list of
    those results. *)
Theorem node_shape (rule_heap : list ParsingRule) (tokens : list Token) (fuel : nat)
    (rule : ParsingRule) (d : definition) (pos : nat) (tree : obj) (final : nat) :
  rule_definition rule = DefDict d →
  distinct_slots d →
  Parser._parse_rule rule_heap tokens fuel rule pos = Done (Some tree, final) →
  ∃ node,
    tree = VDict node
    ∧ dict_get "type" node = Some (name rule)
    ∧ (dict_keys node = "type" :: Parser.mandatory_keys d
       ∧ dict_get "optional" node = None
       ∨ ∃ first results,
           dict_keys node = ("type" :: Parser.mandatory_keys d ++ ["optional"])%list
           ∧ dict_get "optional" node = Some (VList (first :: results))).
Proof.
  intros Hdef Hslots. destruct fuel as [|fuel]; [done|]. simpl.
  unfold Parser.parse_rule_body. rewrite Hdef.
  destruct (mandatory_keys_distinct d Hslots) as [Hnodup Htype].
  destruct (Parser.mandatory_parts rule_heap tokens _ d (Parser.mandatory_keys d)
              [("type", name rule)] pos) as [[[node1 reached]|]|e|] eqn:Hman;
    simpl; try done.
  assert (dict_get "optional" node1 = None) as Habsent.
  { eapply mandatory_parts_keeps_absent;
      [apply mandatory_keys_not_optional| |exact Hman]. reflexivity. }
  apply mandatory_parts_keys in Hman as [Hkeys Hget];
    [|simpl; by apply NoDup_cons].
  simpl in Hkeys. specialize (Hget "type" (name rule) eq_refl).
  assert (∃ node, VDict node1 = VDict node
                  ∧ dict_get "type" node = Some (name rule)
                  ∧ (dict_keys node = "type" :: Parser.mandatory_keys d
                     ∧ dict_get "optional" node = None
                     ∨ ∃ first results,
                         dict_keys node
                         = ("type" :: Parser.mandatory_keys d ++ ["optional"])%list
                         ∧ dict_get "optional" node = Some (VList (first :: results))))
    as Hplain by (exists node1; auto).
  destruct (dict_get "optional" d) as [opts|]; [|by intros [= <- _]].
  destruct (Parser.optional_loop rule_heap tokens _ fuel opts [] reached)
    as [[results final']|e|]; simpl; try done.
  destruct results as [|first results]; intros [= <- _]; [done|].
  exists (dict_set "optional" (VList (first :: results)) node1).
  split; [done|]. split; [by rewrite dict_get_set_ne|].
  right. exists first, results. split; [|apply dict_get_set_eq].
  rewrite dict_set_fresh.
  - rewrite dict_keys_app, Hkeys. reflexivity.
  - rewrite Hkeys. intros Hin. apply elem_of_cons in Hin as [?|Hin]; [done|].
    pose proof (mandatory_keys_not_optional d) as Hno.
    rewrite Forall_forall in Hno. by apply (Hno _ Hin).
Qed.

Lemma node_shape_witness :
  ∃ node,
    VDict [("type", VStr "run"); ("a", Examples.leaf Examples.NUMBER "3");
           ("optional", VList [Examples.leaf Examples.PLUS "+";
                               Examples.leaf Examples.PLUS "+"])] = VDict node
    ∧ dict_get "type" node = Some (VStr "run")
    ∧ (dict_keys node = ["type"; "a"] ∧ dict_get "optional" node = None
       ∨ ∃ first results,
           dict_keys node = ["type"; "a"; "optional"]
           ∧ dict_get "optional" node = Some (VList (first :: results))).
Proof.
  apply (node_shape [] Examples.number_plus_plus 4
           (Examples.rule_of "run" Examples.run_definition) Examples.run_definition 0 _ 3).
  - reflexivity.
  - split; simpl.
    + repeat constructor; intros Hin; apply list_elem_of_In in Hin; simpl in Hin;
        intuition discriminate.
    + intros Hin; apply list_elem_of_In in Hin; simpl in Hin; intuition discriminate.
  - reflexivity.
Defined.

(** X10. When a rule entered within the token list returns a node with the
    key optional, the list under it is not empty and has at most as many
    elements as the rule consumed tokens: every optional round that is part
    of a returned result advanced the position. *)
Theorem optional_list_bounded (rule_heap : list ParsingRule) (tokens : list Token)
    (fuel : nat) (rule : ParsingRule) (pos : nat) (node : ParseNode) (final : nat)
    (results : list obj) :
  pos ≤ length tokens →
  Parser._parse_rule rule_heap tokens fuel rule pos = Done (Some (VDict node), final) →
  dict_get "optional" node = Some (VList results) →
  0 < length results ≤ final - pos.
Proof.
  intros Hpos. destruct fuel as [|fuel]; [done|]. simpl.
  unfold Parser.parse_rule_body.
  destruct (rule_definition rule) as [d|l]; [|done].
  pose proof (mandatory_parts_post rule_heap tokens _
                (_parse_rule_post rule_heap tokens fuel) d (Parser.mandatory_keys d)
                [("type", name rule)] pos Hpos) as Hpost.
  destruct (Parser.mandatory_parts rule_heap tokens _ d (Parser.mandatory_keys d)
              [("type", name rule)] pos) as [[[node1 reached]|]|e|] eqn:Hman;
    simpl in *; try done.
  assert (dict_get "optional" node1 = None) as Habsent.
  { eapply mandatory_parts_keeps_absent;
      [apply mandatory_keys_not_optional| |exact Hman]. reflexivity. }
  destruct (dict_get "optional" d) as [opts|]; [|intros [= <- _]; congruence].
  destruct (Parser.optional_loop rule_heap tokens _ fuel opts [] reached)
    as [[results' final']|e|] eqn:Hloop; simpl; try done.
  apply optional_loop_bound in Hloop;
    [|apply _parse_rule_post|lia].
  destruct results' as [|first results']; intros [= <- <-]; [congruence|].
  rewrite dict_get_set_eq. intros [= <-]. simpl in *. lia.
Qed.

Lemma optional_list_bounded_witness :
  0 < length [Examples.leaf Examples.PLUS "+"; Examples.leaf Examples.PLUS "+"] ≤ 3 - 0.
Proof.
  apply (optional_list_bounded [] Examples.number_plus_plus 4
           (Examples.rule_of "run" Examples.run_definition) 0
           [("type", VStr "run"); ("a", Examples.leaf Examples.NUMBER "3");
            ("optional", VList [Examples.leaf Examples.PLUS "+";
                                Examples.leaf Examples.PLUS "+"])] 3).
  - simpl. lia.
  - reflexivity.
  - reflexivity.
Defined.

(** ** parse: success, unknown start rule, and the fuel of the model *)

(** X11. [parse] returns a tree exactly when the start rule is registered
    and the matcher, entered at position 0, returns that tree with every
    token consumed; for a start rule name that is not registered it raises
    KeyError, whatever the tokens. *)
Theorem parse_returns_exactly_when (self : Parser) (tokens : list Token)
    (start_rule_name : string) (fuel : nat) :
  (∀ tree,
     Parser.parse fuel self tokens start_rule_name = Done tree
     ↔ ∃ addr rule,
         rules self !! start_rule_name = Some addr
         ∧ heap self !! addr = Some rule
         ∧ Parser._parse_rule (heap self) tokens fuel rule 0
           = Done (Some tree, length tokens))
  ∧ (rules self !! start_rule_name = None →
     Parser.parse fuel self tokens start_rule_name = Raise (KeyError start_rule_name)).
Proof.
  unfold Parser.parse. split; [|by intros ->].
  intros tree. destruct (rules self !! start_rule_name) as [addr|].
  2: { split; [done|]. by intros (? & ? & ? & _). }
  destruct (heap self !! addr) as [rule|] eqn:Hheap.
  2: { split; [done|]. intros (? & ? & [= <-] & ? & _). congruence. }
  assert (∀ P : ParsingRule → Prop,
            (∃ a r, Some addr = Some a ∧ heap self !! a = Some r ∧ P r) ↔ P rule) as Hex.
  { intros P. split.
    - intros (a & r & [= <-] & Hr & HP). rewrite Hheap in Hr. by injection Hr as <-.
    - intros HP. by exists addr, rule. }
  rewrite (Hex (λ r, Parser._parse_rule (heap self) tokens fuel r 0
                     = Done (Some tree, length tokens))).
  destruct (Parser._parse_rule (heap self) tokens fuel rule 0)
    as [[[tree'|] pos]|e|]; simpl; try done.
  destruct (decide (pos ≠ length tokens)) as [Hne|Heq].
  - split; [done|]. by intros [= _ ?].
  - apply dec_stable in Heq. subst pos. split; by intros [= <-].
Qed.

Lemma parse_returns_exactly_when_witness :
  Parser.parse 1 Parser.init Examples.two_numbers "math" = Raise (KeyError "math").
Proof.
  apply (proj2 (parse_returns_exactly_when Parser.init Examples.two_numbers "math" 1)).
  reflexivity.
Defined.




(** ** The matcher: rules that begin with a token *)

Lemma everywhere_dict P d : everywhere P (EDict d) ↔ definition_ok P d.
Proof.
  unfold definition_ok. simpl.
  assert (∀ l : list element,
            (fix alts (l : list element) : Prop :=
               match l with
               | [] => True
               | alt :: l' => everywhere P alt ∧ alts l'
               end) l ↔ Forall (everywhere P) l) as Halts.
  { induction l as [|alt l IH]; [by split; [constructor|]|].
    by rewrite Forall_cons, <- IH. }
  assert ((fix slots (d : definition) : Prop :=
             match d with
             | [] => True
             | (_, alternatives) :: d' =>
                 (fix alts (l : list element) : Prop :=
                    match l with
                    | [] => True
                    | alt :: l' => everywhere P alt ∧ alts l'
                    end) alternatives ∧ slots d'
             end) d ↔ Forall (λ slot, Forall (everywhere P) slot.2) d) as Hslots.
  { induction d as [|[k alternatives] d IH]; [by split; [constructor|]|].
    by rewrite Forall_cons, <- IH, <- Halts. }
  by rewrite Hslots.
Qed.

Lemma definition_ok_alternatives P d part alternatives :
  definition_ok P d → dict_get part d = Some alternatives →
  Forall (everywhere P) alternatives.
Proof.
  intros [_ Hall] Hget. apply dict_get_some_key in Hget.
  rewrite Forall_forall in Hall. exact (Hall _ Hget).
Qed.

Lemma setattrs_definition items self self' :
  Rule.setattrs items self = (self', None) →
  rule_definition self' = rule_definition self ∨ ∃ l, rule_definition self' = DefList l.
Proof.
  revert self. induction items as [|[key value] items IH]; intros self; simpl.
  - intros [= <-]. by left.
  - destruct (Rule.setattr key value self) as [self1|e] eqn:Hset; [|done].
    intros Hrest. destruct (IH _ Hrest) as [Heq|Hlist]; [|by right].
    rewrite Heq. unfold Rule.setattr in Hset.
    repeat match type of Hset with
    | (if ?b then _ else _) = _ => destruct b; try discriminate
    end; injection Hset as <-; simpl; eauto.
Qed.

Lemma update_definition_ok P d self self' :
  everywhere P (EDict d) →
  Rule.update_definition d self = (self', None) →
  rule_ok P self'.
Proof.
  intros Hd Hupd d' Hdef. apply setattrs_definition in Hupd as [Heq|[l Hl]].
  - simpl in Heq. rewrite Hdef in Heq. injection Heq as ->.
    exact (proj1 (everywhere_dict P d) Hd).
  - congruence.
Qed.

Section TokenFirst.
Variable rule_heap : list ParsingRule.
Variable tokens : list Token.
Hypothesis heap_ok : Forall (rule_ok token_first) rule_heap.

Lemma first_alternative_token_only parse_rule alternatives pos :
  token_only alternatives →
  Parser.first_alternative rule_heap tokens parse_rule alternatives pos = Done None
  ∨ pos < length tokens
    ∧ ∃ parsed, Parser.first_alternative rule_heap tokens parse_rule alternatives pos
                = Done (Some (parsed, pos + 1)).
Proof.
  induction 1 as [|alt rest Halt _ IH]; simpl; [by left|].
  destruct alt as [td|addr|d|]; try done; simpl.
  destruct (tokens !! pos) as [tok|] eqn:Htok; simpl; [|exact IH].
  destruct (td_eq (tok_type tok) td); simpl; [|exact IH].
  right. split; [by eapply lookup_lt_Some|eauto].
Qed.

(* a rule that begins with a token consumes at least one token when it
   matches *)
Lemma token_first_progress fuel rule pos tree final :
  pos ≤ length tokens →
  (∀ d, rule_definition rule = DefDict d → token_first d) →
  Parser._parse_rule rule_heap tokens fuel rule pos = Done (Some tree, final) →
  pos < final.
Proof.
  intros Hpos Hrule. destruct fuel as [|fuel]; [done|]. simpl.
  unfold Parser.parse_rule_body.
  destruct (rule_definition rule) as [d|l] eqn:Hdef; [|done].
  destruct (Hrule d eq_refl) as (part & parts & alternatives & Hkeys & Hget & Htokens).
  rewrite Hkeys. simpl. rewrite Hget.
  destruct (first_alternative_token_only (Parser._parse_rule rule_heap tokens fuel)
              alternatives pos Htokens) as [-> | (Hlt & parsed & ->)]; simpl; [done|].
  pose proof (mandatory_parts_post rule_heap tokens _
                (_parse_rule_post rule_heap tokens fuel) d parts
                (dict_set part parsed [("type", name rule)]) (pos + 1) ltac:(lia))
    as Hman.
  destruct (Parser.mandatory_parts rule_heap tokens _ d parts _ (pos + 1))
    as [[[node1 reached]|]|e|]; simpl in *; try done.
  destruct (dict_get "optional" d) as [opts|]; [|intros [= _ <-]; lia].
  pose proof (optional_loop_post rule_heap tokens _
                (_parse_rule_post rule_heap tokens fuel) fuel opts [] reached
                ltac:(lia)) as Hopt.
  destruct (Parser.optional_loop rule_heap tokens _ fuel opts [] reached)
    as [[results final']|e|]; simpl in *; try done.
  destruct results; intros [= _ <-]; lia.
Qed.

Lemma rule_ok_progress fuel rule pos tree final :
  pos ≤ length tokens →
  rule_ok token_first rule →
  Parser._parse_rule rule_heap tokens fuel rule pos = Done (Some tree, final) →
  pos < final.
Proof.
  intros Hpos Hok. apply token_first_progress; [done|].
  intros d Hdef. exact (proj1 (Hok d Hdef)).
Qed.

Section Body.
Variable parse_rule : ParsingRule → nat → res (option obj * nat).
Variable entry : nat.
Hypothesis parse_rule_post :
  ∀ rule pos, pos ≤ length tokens → matcher_post tokens pos (parse_rule rule pos).
Hypothesis parse_rule_returns :
  ∀ rule pos, entry ≤ pos → pos ≤ length tokens → rule_ok token_first rule →
              parse_rule rule pos ≠ OutOfFuel.
Hypothesis parse_rule_progress :
  ∀ rule pos tree final, pos ≤ length tokens → rule_ok token_first rule →
                         parse_rule rule pos = Done (Some tree, final) → pos < final.

Lemma parse_element_returns element pos :
  everywhere token_first element → entry ≤ pos → pos ≤ length tokens →
  Parser.parse_element rule_heap tokens parse_rule element pos ≠ OutOfFuel
  ∧ ∀ tree final,
      Parser.parse_element rule_heap tokens parse_rule element pos
        = Done (Some tree, final) → pos < final.
Proof.
  intros Helement Hentry Hpos. destruct element as [td|addr|d|]; simpl.
  - destruct (tokens !! pos) as [tok|]; [|done].
    destruct (td_eq (tok_type tok) td); [|done].
    split; [done|]. intros tree final [= _ <-]. lia.
  - destruct (rule_heap !! addr) as [rule|] eqn:Hrule; [|done].
    assert (rule_ok token_first rule) as Hok.
    { rewrite Forall_forall in heap_ok. apply heap_ok.
      by eapply list_elem_of_lookup_2. }
    split; [by apply parse_rule_returns|].
    intros tree final. by apply parse_rule_progress.
  - destruct (Rule.update_definition d (Rule.init "temp")) as [temp_rule [e|]] eqn:Hupd;
      [done|].
    pose proof (update_definition_ok _ _ _ _ Helement Hupd) as Hok.
    split; [by apply parse_rule_returns|].
    intros tree final. by apply parse_rule_progress.
  - done.
Qed.

Lemma first_alternative_returns alternatives pos :
  Forall (everywhere token_first) alternatives → entry ≤ pos → pos ≤ length tokens →
  Parser.first_alternative rule_heap tokens parse_rule alternatives pos ≠ OutOfFuel
  ∧ ∀ parsed new_pos,
      Parser.first_alternative rule_heap tokens parse_rule alternatives pos
        = Done (Some (parsed, new_pos)) → pos < new_pos.
Proof.
  intros Hall Hentry Hpos. induction Hall as [|alt rest Halt _ IH]; simpl; [done|].
  destruct (parse_element_returns alt pos Halt Hentry Hpos) as [Hret Hprog].
  destruct (Parser.parse_element rule_heap tokens parse_rule alt pos)
    as [[[tree|] final]|e|]; simpl; try done.
  split; [done|]. intros parsed new_pos [= <- <-]. by eapply Hprog.
Qed.

Lemma mandatory_parts_returns d parts node pos :
  definition_ok token_first d → entry ≤ pos → pos ≤ length tokens →
  Parser.mandatory_parts rule_heap tokens parse_rule d parts node pos ≠ OutOfFuel.
Proof.
  intros Hd. revert node pos.
  induction parts as [|part rest IH]; intros node pos Hentry Hpos; simpl; [done|].
  destruct (dict_get part d) as [alternatives|] eqn:Hget; [|done].
  pose proof (definition_ok_alternatives _ _ _ _ Hd Hget) as Hall.
  destruct (first_alternative_returns alternatives pos Hall Hentry Hpos) as [Hret _].
  pose proof (first_alternative_post rule_heap tokens parse_rule parse_rule_post
                alternatives pos Hpos) as Hpost.
  destruct (Parser.first_alternative rule_heap tokens parse_rule alternatives pos)
    as [[[parsed new_pos]|]|e|]; simpl in *; try done.
  apply IH; lia.
Qed.

Lemma optional_loop_returns n opts opt_results pos :
  Forall (everywhere token_first) opts → entry ≤ pos → pos ≤ length tokens →
  length tokens - pos < n →
  Parser.optional_loop rule_heap tokens parse_rule n opts opt_results pos ≠ OutOfFuel.
Proof.
  intros Hall. revert opt_results pos.
  induction n as [|n IH]; intros opt_results pos Hentry Hpos Hn; [lia|]. simpl.
  destruct (first_alternative_returns opts pos Hall Hentry Hpos) as [Hret Hprog].
  pose proof (first_alternative_post rule_heap tokens parse_rule parse_rule_post
                opts pos Hpos) as Hpost.
  destruct (Parser.first_alternative rule_heap tokens parse_rule opts pos)
    as [[[parsed new_pos]|]|e|]; simpl in *; try done.
  specialize (Hprog parsed new_pos eq_refl). apply IH; lia.
Qed.
End Body.

Lemma token_first_returns fuel rule pos :
  pos ≤ length tokens →
  length tokens - pos < fuel →
  rule_ok token_first rule →
  Parser._parse_rule rule_heap tokens fuel rule pos ≠ OutOfFuel.
Proof.
  revert rule pos.
  induction fuel as [|fuel IH]; intros rule pos Hpos Hfuel Hrule; [lia|]. simpl.
  unfold Parser.parse_rule_body.
  destruct (rule_definition rule) as [d|l] eqn:Hdef; [|done].
  pose proof (Hrule d Hdef) as Hd.
  destruct Hd as [(part & parts & alternatives & Hkeys & Hget & Htokens) Hall].
  rewrite Hkeys. simpl. rewrite Hget.
  destruct (first_alternative_token_only (Parser._parse_rule rule_heap tokens fuel)
              alternatives pos Htokens) as [-> | (Hlt & parsed & ->)]; simpl; [done|].
  assert (∀ rule' pos', pos + 1 ≤ pos' → pos' ≤ length tokens →
                        rule_ok token_first rule' →
                        Parser._parse_rule rule_heap tokens fuel rule' pos' ≠ OutOfFuel)
    as Hreturns.
  { intros rule' pos' Hentry Hpos' Hok. apply IH; [done|lia|done]. }
  pose proof (mandatory_parts_returns _ (pos + 1)
                (_parse_rule_post rule_heap tokens fuel) Hreturns
                (rule_ok_progress fuel) d parts
                (dict_set part parsed [("type", name rule)]) (pos + 1)
                (Hrule d Hdef) ltac:(lia) ltac:(lia)) as Hman.
  pose proof (mandatory_parts_post rule_heap tokens _
                (_parse_rule_post rule_heap tokens fuel) d parts
                (dict_set part parsed [("type", name rule)]) (pos + 1) ltac:(lia))
    as Hpost.
  destruct (Parser.mandatory_parts rule_heap tokens _ d parts _ (pos + 1))
    as [[[node1 reached]|]|e|]; simpl in *; try done.
  destruct (dict_get "optional" d) as [opts|] eqn:Hopt; [|done].
  pose proof (optional_loop_returns _ (pos + 1)
                (_parse_rule_post rule_heap tokens fuel) Hreturns
                (rule_ok_progress fuel) fuel opts [] reached
                (definition_ok_alternatives _ _ _ _ (Hrule d Hdef) Hopt)
                ltac:(lia) ltac:(lia) ltac:(lia)) as Hloop.
  destruct (Parser.optional_loop rule_heap tokens _ fuel opts [] reached)
    as [[results final]|e|]; simpl; try done.
  by destruct results.
Qed.
End TokenFirst.

(** X13. A rule whose first mandatory slot holds token definitions only
    consumes at least one token whenever it matches; in particular it does
    not match at the end of the token list. *)
Theorem token_first_rule_consumes (rule_heap : list ParsingRule) (tokens : list Token)
    (fuel : nat) (rule : ParsingRule) (d : definition) (pos : nat) (tree : obj)
    (final : nat) :
  pos ≤ length tokens →
  rule_definition rule = DefDict d →
  token_first d →
  Parser._parse_rule rule_heap tokens fuel rule pos = Done (Some tree, final) →
  pos < final ≤ length tokens.
Proof.
  intros Hpos Hdef Hfirst Hrule. split.
  - eapply token_first_progress; [done| |exact Hrule].
    intros d' Hd'. rewrite Hdef in Hd'. by injection Hd' as <-.
  - pose proof (_parse_rule_post rule_heap tokens fuel rule pos Hpos) as Hpost.
    rewrite Hrule in Hpost. simpl in Hpost. lia.
Qed.

Lemma token_first_rule_consumes_witness : 0 < 3 ≤ 3.
Proof.
  apply (token_first_rule_consumes [] Examples.number_plus_plus 4
           (Examples.rule_of "run" Examples.run_definition) Examples.run_definition 0
           (VDict [("type", VStr "run"); ("a", Examples.leaf Examples.NUMBER "3");
                   ("optional", VList [Examples.leaf Examples.PLUS "+";
                                       Examples.leaf Examples.PLUS "+"])]) 3).
  - simpl. lia.
  - reflexivity.
  - exists "a", [], [ETok Examples.NUMBER]. split; [vm_compute; reflexivity|].
    split; [reflexivity|]. repeat constructor.
  - reflexivity.
Defined.

Lemma parse_token_first_returns (self : Parser) (tokens : list Token)
    (start_rule_name : string) (fuel : nat) :
  Forall (rule_ok token_first) (heap self) →
  length tokens < fuel →
  (∃ tree, Parser.parse fuel self tokens start_rule_name = Done tree)
  ∨ (∃ e, Parser.parse fuel self tokens start_rule_name = Raise e).
Proof.
  intros Hheap Hfuel. unfold Parser.parse.
  destruct (rules self !! start_rule_name) as [addr|]; [|by right; eauto].
  destruct (heap self !! addr) as [rule|] eqn:Hrule; [|by right; eauto].
  assert (rule_ok token_first rule) as Hok.
  { rewrite Forall_forall in Hheap. apply Hheap. by eapply list_elem_of_lookup_2. }
  pose proof (token_first_returns (heap self) tokens Hheap fuel rule 0
                ltac:(lia) ltac:(lia) Hok) as Hreturns.
  destruct (Parser._parse_rule (heap self) tokens fuel rule 0)
    as [[[tree|] pos]|e|]; simpl; try done; [|by right; eauto|by right; eauto].
  destruct (decide (pos ≠ length tokens)); [right|left]; eauto.
Qed.

(** X14. When every rule of the parser, and every inline rule inside one,
    begins with a mandatory slot of token definitions, [parse] returns on
    every token list: with more fuel than there are tokens the result is a
    tree or an exception, never an exhausted budget.  Nested rules are then
    entered only after a token was consumed, and every optional round
    consumes one. *)
Theorem token_first_grammar_terminates (self : Parser) (tokens : list Token)
    (start_rule_name : string) (fuel : nat) :
  Forall (rule_ok token_first) (heap self) →
  length tokens < fuel →
  (∃ tree, Parser.parse fuel self tokens start_rule_name = Done tree)
  ∨ (∃ e, Parser.parse fuel self tokens start_rule_name = Raise e).
Proof. apply parse_token_first_returns. Qed.

Ltac token_first_rules :=
  repeat (apply Forall_cons; split;
          [intros ? [= <-]; split;
           [eexists _, _, _; split; [vm_compute; reflexivity|];
            split; [reflexivity|repeat constructor]
           |repeat constructor]|]);
  apply Forall_nil.

Lemma main_parser_token_first : Forall (rule_ok token_first) (heap main_parser).
Proof.
  let h := eval vm_compute in (heap main_parser) in
  replace (heap main_parser) with h by (vm_compute; reflexivity).
  token_first_rules. all: exact I.
Qed.

Lemma token_first_grammar_terminates_witness :
  (∃ tree, Parser.parse 3 main_parser Examples.two_numbers "math" = Done tree)
  ∨ (∃ e, Parser.parse 3 main_parser Examples.two_numbers "math" = Raise e).
Proof.
  apply (token_first_grammar_terminates main_parser Examples.two_numbers "math" 3).
  - exact main_parser_token_first.
  - simpl. lia.
Defined.

(** X15. On the empty token list, [parse] from a registered start rule whose
    first mandatory slot holds token definitions only raises the ValueError
    Parsing failed, with any fuel above zero. *)
Theorem parse_no_tokens (self : Parser) (start_rule_name : string) (addr : nat)
    (rule : ParsingRule) (d : definition) (fuel : nat) :
  rules self !! start_rule_name = Some addr →
  heap self !! addr = Some rule →
  rule_definition rule = DefDict d →
  token_first d →
  Parser.parse (S fuel) self [] start_rule_name = Raise (ValueError Parsing_failed).
Proof.
  intros Hstart Hrule Hdef (part & parts & alternatives & Hkeys & Hget & Htokens).
  unfold Parser.parse. rewrite Hstart, Hrule. simpl.
  unfold Parser.parse_rule_body. rewrite Hdef, Hkeys. simpl. rewrite Hget.
  destruct (first_alternative_token_only (heap self) []
              (Parser._parse_rule (heap self) [] fuel) alternatives 0 Htokens)
    as [-> | (Hlt & _)]; [done|simpl in Hlt; lia].
Qed.

Lemma parse_no_tokens_witness :
  Parser.parse 1 (Parser.setitem "pair" Examples.pair_definition Parser.init).1 [] "pair"
  = Raise (ValueError Parsing_failed).
Proof.
  apply (parse_no_tokens (Parser.setitem "pair" Examples.pair_definition Parser.init).1
           "pair" 0 (Examples.rule_of "pair" Examples.pair_definition)
           Examples.pair_definition 0).
  - vm_compute. reflexivity.
  - reflexivity.
  - reflexivity.
  - exists "a", ["b"], [ETok Examples.NUMBER]. split; [vm_compute; reflexivity|].
    split; [reflexivity|]. repeat constructor.
Defined.

Lemma tiling_length token_defs text offset tokens :
  Forall (λ td, td_value td ≠ Some "") token_defs →
  Tiling token_defs text offset tokens →
  length tokens ≤ String.length text.
Proof.
  intros Hnonempty. induction 1 as [|gap value rest offset td tokens _ Htd Hlexeme _ IH];
    simpl; [lia|].
  rewrite !length_append.
  assert (value ≠ "") as Hvalue.
  { rewrite Forall_forall in Hnonempty. specialize (Hnonempty td Htd).
    destruct Hlexeme as [Hliteral|(_ & p & _ & Hmatch)]; [congruence|].
    intros ->. by apply match_nonempty in Hmatch. }
  destruct value; [done|simpl; lia].
Qed.

(** X16. From text to parse tree without hanging: when the lexer's list holds
    literal and pattern kinds, none with an empty literal, and every rule of
    the parser begins with a mandatory slot of token definitions, tokenizing
    and parsing a text with more fuel than the text has characters gives a
    tree or an exception.  The lexer and parser of main.py are of this kind. *)
Theorem text_to_tree_terminates (lexer : Lexer.t) (parser : Parser) (text : string)
    (fuel : nat) :
  Forall LexSpec.kind lexer →
  Forall (λ td, td_value td ≠ Some "") lexer →
  Forall (rule_ok token_first) (heap parser) →
  String.length text < fuel →
  (∃ tree, Interpreter.parse_text fuel (Some lexer) (Some parser) text = Done tree)
  ∨ (∃ e, Interpreter.parse_text fuel (Some lexer) (Some parser) text = Raise e).
Proof.
  intros Hkinds Hnonempty Hheap Hfuel. simpl.
  destruct (tokenize_returns fuel lexer text Hkinds Hnonempty Hfuel)
    as [[tokens Htokens]|(position & rest & Herror)].
  2: { rewrite Herror. right. eauto. }
  rewrite Htokens. simpl.
  apply parse_token_first_returns; [done|].
  unfold Lexer.tokenize in Htokens.
  destruct (tokenize_loop_tiling fuel lexer "" (Str.strip text) [] tokens Htokens)
    as (new & -> & Htiling).
  pose proof (tiling_length lexer _ 0 new Hnonempty Htiling) as Hlen.
  pose proof (length_strip text). simpl. lia.
Qed.

Lemma text_to_tree_terminates_witness :
  (∃ tree, Interpreter.parse_text 8 (Some main_lexer) (Some main_parser) "3 + 4 5"
           = Done tree)
  ∨ (∃ e, Interpreter.parse_text 8 (Some main_lexer) (Some main_parser) "3 + 4 5"
          = Raise e).
Proof.
  apply (text_to_tree_terminates main_lexer main_parser "3 + 4 5" 8).
  - let l := eval vm_compute in main_lexer in
    replace main_lexer with l by (vm_compute; reflexivity).
    repeat constructor; unfold LexSpec.kind; simpl; discriminate.
  - let l := eval vm_compute in main_lexer in
    replace main_lexer with l by (vm_compute; reflexivity).
    repeat constructor; simpl; discriminate.
  - exact main_parser_token_first.
  - simpl. lia.
Defined.

(** ** The parse tree and the tokens *)

Lemma leaves_list l : leaves (VList l) = list_leaves l.
Proof.
  unfold list_leaves. simpl. induction l as [|x l IH]; simpl; [done|]. by rewrite IH.
Qed.

Lemma leaves_dict d :
  leaves (VDict d)
  = match as_leaf d with
    | Some leaf => [leaf]
    | None => values_leaves d
    end.
Proof.
  unfold values_leaves. simpl. destruct (as_leaf d); [done|].
  induction d as [|[k v] d IH]; simpl; [done|]. by rewrite IH.
Qed.

Lemma values_leaves_app d1 d2 :
  values_leaves (d1 ++ d2) = (values_leaves d1 ++ values_leaves d2)%list.
Proof. unfold values_leaves. by rewrite map_app, concat_app. Qed.

Lemma list_leaves_app l1 l2 :
  list_leaves (l1 ++ l2) = (list_leaves l1 ++ list_leaves l2)%list.
Proof. unfold list_leaves. by rewrite map_app, concat_app. Qed.

Lemma as_leaf_none k v rest :
  Forall (λ entry : string * obj, ∀ s, entry.2 ≠ VStr s) rest →
  as_leaf ((k, v) :: rest) = None.
Proof.
  intros Hrest. destruct rest as [|[k2 v2] [|third rest]]; simpl.
  - by destruct v.
  - apply Forall_cons in Hrest as [Hv2 _]. simpl in Hv2.
    destruct v; try done. destruct v2; try done. by destruct (Hv2 s0).
  - destruct v; try done. by destruct v2.
Qed.

Lemma segment_nil tokens pos : segment tokens pos pos = [].
Proof. unfold segment. by rewrite Nat.sub_diag. Qed.

Lemma segment_one (tokens : list Token) pos tok :
  tokens !! pos = Some tok → segment tokens pos (pos + 1) = [tok].
Proof.
  intros Htok. unfold segment. replace (pos + 1 - pos) with 1 by lia.
  rewrite (drop_S _ _ _ Htok). reflexivity.
Qed.

Lemma segment_app (tokens : list Token) p q r :
  p ≤ q → q ≤ r →
  (segment tokens p q ++ segment tokens q r)%list = segment tokens p r.
Proof.
  intros Hpq Hqr. unfold segment.
  replace (r - p) with ((q - p) + (r - q)) by lia.
  rewrite <- take_take_drop, drop_drop.
  by replace (p + (q - p)) with q by lia.
Qed.

Lemma setattrs_plain_name items self self' e :
  Rule.setattrs items self = (self', e) → plain_name self → plain_name self'.
Proof.
  revert self. induction items as [|[key value] items IH]; intros self; simpl.
  - by intros [= <- _].
  - destruct (Rule.setattr key value self) as [self1|e1] eqn:Hset.
    + intros Hrest Hname. apply (IH _ Hrest). unfold Rule.setattr in Hset.
      repeat match type of Hset with
      | (if ?b then _ else _) = _ => destruct b; try discriminate
      end; by injection Hset as <-.
    + by intros [= <- _].
Qed.

Lemma update_definition_tidy d self self' :
  everywhere distinct_slots (EDict d) →
  plain_name self →
  Rule.update_definition d self = (self', None) →
  tidy_rule self'.
Proof.
  intros Hd Hname Hupd. split; [by eapply update_definition_ok|].
  by eapply setattrs_plain_name in Hupd.
Qed.

Section Leaves.
Variable rule_heap : list ParsingRule.
Variable tokens : list Token.
Hypothesis heap_tidy : Forall tidy_rule rule_heap.

Section Body.
Variable parse_rule : ParsingRule → nat → res (option obj * nat).
Hypothesis parse_rule_post :
  ∀ rule pos, pos ≤ length tokens → matcher_post tokens pos (parse_rule rule pos).
Hypothesis parse_rule_consumed :
  ∀ rule pos tree final, pos ≤ length tokens → tidy_rule rule →
    parse_rule rule pos = Done (Some tree, final) → consumed tokens pos tree final.

Lemma parse_element_consumed element pos tree final :
  everywhere distinct_slots element → pos ≤ length tokens →
  Parser.parse_element rule_heap tokens parse_rule element pos = Done (Some tree, final) →
  consumed tokens pos tree final.
Proof.
  intros Helement Hpos. destruct element as [td|addr|d|]; simpl; [| | |done].
  - destruct (tokens !! pos) as [tok|] eqn:Htok; [|done].
    destruct (td_eq (tok_type tok) td); [|done].
    intros [= <- <-]. split; [eauto|].
    by rewrite (segment_one tokens pos tok Htok).
  - destruct (rule_heap !! addr) as [rule|] eqn:Hrule; [|done].
    apply parse_rule_consumed; [done|].
    rewrite Forall_forall in heap_tidy. apply heap_tidy.
    by eapply list_elem_of_lookup_2.
  - destruct (Rule.update_definition d (Rule.init "temp")) as [temp_rule [e|]] eqn:Hupd;
      [done|].
    apply parse_rule_consumed; [done|].
    apply (update_definition_tidy d (Rule.init "temp") temp_rule Helement I Hupd).
Qed.

Lemma first_alternative_consumed alternatives pos tree final :
  Forall (everywhere distinct_slots) alternatives → pos ≤ length tokens →
  Parser.first_alternative rule_heap tokens parse_rule alternatives pos
    = Done (Some (tree, final)) →
  consumed tokens pos tree final.
Proof.
  intros Hall Hpos. induction Hall as [|alt rest Halt _ IH]; simpl; [done|].
  pose proof (parse_element_consumed alt pos) as Helement.
  destruct (Parser.parse_element rule_heap tokens parse_rule alt pos)
    as [[[parsed|] new_pos]|e|]; simpl; try done.
  intros [= <- <-]. by apply Helement.
Qed.

Lemma mandatory_parts_consumed d parts entry key v rest pos node' pos' :
  definition_ok distinct_slots d →
  entry ≤ pos → pos ≤ length tokens →
  NoDup (key :: dict_keys rest ++ parts) →
  Forall (λ slot : string * obj, ∃ node, slot.2 = VDict node) rest →
  values_leaves rest = map token_leaf (segment tokens entry pos) →
  Parser.mandatory_parts rule_heap tokens parse_rule d parts ((key, v) :: rest) pos
    = Done (Some (node', pos')) →
  ∃ rest', node' = (key, v) :: rest'
           ∧ Forall (λ slot : string * obj, ∃ node, slot.2 = VDict node) rest'
           ∧ values_leaves rest' = map token_leaf (segment tokens entry pos')
           ∧ pos ≤ pos' ≤ length tokens.
Proof.
  intros Hd. revert rest pos.
  induction parts as [|part parts IH]; intros rest pos Hentry Hpos Hnodup Hrest Hleaves;
    simpl.
  - intros [= <- <-]. exists rest. repeat split; (done || lia).
  - destruct (dict_get part d) as [alternatives|] eqn:Hget; [|done].
    pose proof (definition_ok_alternatives _ _ _ _ Hd Hget) as Hall.
    pose proof (first_alternative_consumed alternatives pos) as Hfirst.
    pose proof (first_alternative_post rule_heap tokens parse_rule parse_rule_post
                  alternatives pos Hpos) as Hpost.
    destruct (Parser.first_alternative rule_heap tokens parse_rule alternatives pos)
      as [[[parsed new_pos]|]|e|]; cbv beta iota delta [mbind res_bind];
      simpl in Hpost; try done.
    destruct (Hfirst parsed new_pos Hall Hpos eq_refl) as [[node Hnode] Hparsed].
    assert (part ∉ key :: dict_keys rest) as Hfresh.
    { change (key :: dict_keys rest ++ part :: parts)%list
        with ((key :: dict_keys rest) ++ part :: parts)%list in Hnodup.
      apply NoDup_app in Hnodup as (_ & Hdisjoint & _).
      intros Hin. apply (Hdisjoint part Hin). by left. }
    apply not_elem_of_cons in Hfresh as [Hkey Hfresh].
    rewrite (proj2 (String.eqb_neq part key) Hkey).
    rewrite (dict_set_fresh part parsed rest Hfresh).
    intros Hparts. apply IH in Hparts.
    + destruct Hparts as (rest' & -> & Hrest' & Hleaves' & Hpos').
      exists rest'. repeat split; (done || lia).
    + lia.
    + lia.
    + rewrite dict_keys_app. simpl. rewrite <- app_assoc. exact Hnodup.
    + apply Forall_app. split; [done|]. constructor; [|constructor]. by exists node.
    + rewrite values_leaves_app, Hleaves. unfold values_leaves at 1. simpl.
      rewrite app_nil_r, Hparsed, <- map_app. f_equal. apply segment_app; lia.
Qed.

Lemma optional_loop_consumed n opts entry opt_results pos results final :
  Forall (everywhere distinct_slots) opts →
  entry ≤ pos → pos ≤ length tokens →
  list_leaves opt_results = map token_leaf (segment tokens entry pos) →
  Parser.optional_loop rule_heap tokens parse_rule n opts opt_results pos
    = Done (results, final) →
  list_leaves results = map token_leaf (segment tokens entry final)
  ∧ pos ≤ final ≤ length tokens.
Proof.
  intros Hall. revert opt_results pos.
  induction n as [|n IH]; intros opt_results pos Hentry Hpos Hleaves; simpl; [done|].
  pose proof (first_alternative_consumed opts pos) as Hfirst.
  pose proof (first_alternative_post rule_heap tokens parse_rule parse_rule_post
                opts pos Hpos) as Hpost.
  destruct (Parser.first_alternative rule_heap tokens parse_rule opts pos)
    as [[[parsed new_pos]|]|e|]; simpl in *; try done.
  - destruct (Hfirst parsed new_pos Hall Hpos eq_refl) as [_ Hparsed].
    intros Hloop. apply IH in Hloop; [split; [apply Hloop|lia]|lia|lia|].
    rewrite list_leaves_app, Hleaves. unfold list_leaves at 1. simpl.
    rewrite app_nil_r, Hparsed, <- map_app. f_equal. apply segment_app; lia.
  - intros [= <- <-]. split; [done|lia].
Qed.

Lemma parse_rule_body_consumed n rule pos tree final :
  tidy_rule rule → pos ≤ length tokens →
  Parser.parse_rule_body rule_heap tokens parse_rule n rule pos = Done (Some tree, final) →
  consumed tokens pos tree final.
Proof.
  intros [Hrule Hname] Hpos. unfold Parser.parse_rule_body.
  destruct (rule_definition rule) as [d|l] eqn:Hdef; [|done].
  pose proof (Hrule d Hdef) as Hd.
  destruct (mandatory_keys_distinct d (proj1 Hd)) as [Hnodup Htype].
  destruct (Parser.mandatory_parts rule_heap tokens parse_rule d (Parser.mandatory_keys d)
              [("type", name rule)] pos) as [[[node1 reached]|]|e|] eqn:Hman;
    simpl; try done.
  assert (dict_get "optional" node1 = None) as Habsent.
  { eapply mandatory_parts_keeps_absent;
      [apply mandatory_keys_not_optional| |exact Hman]. reflexivity. }
  pose proof Hman as Hkeys. apply mandatory_parts_keys in Hkeys as [Hkeys _];
    [|simpl; by apply NoDup_cons].
  apply (mandatory_parts_consumed d _ pos "type" (name rule) [] pos) in Hman;
    [|done|lia|done|simpl; by apply NoDup_cons|constructor
     |by rewrite segment_nil].
  destruct Hman as (rest' & -> & Hrest' & Hleaves & Hreached).
  assert (leaves (name rule) = []) as Hno_leaves.
  { unfold plain_name in Hname. by destruct (name rule). }
  assert (∀ extra,
            Forall (λ slot : string * obj, ∀ s, slot.2 ≠ VStr s) extra →
            leaves (VDict (("type", name rule) :: rest' ++ extra))
            = (values_leaves rest' ++ values_leaves extra)%list) as Hnode.
  { intros extra Hextra. rewrite leaves_dict.
    rewrite as_leaf_none.
    - unfold values_leaves at 1. simpl. rewrite Hno_leaves. simpl.
      apply values_leaves_app.
    - apply Forall_app. split; [|done].
      eapply Forall_impl; [exact Hrest'|]. intros slot [node ->] s. done. }
  destruct (dict_get "optional" d) as [opts|] eqn:Hopt.
  2: { intros [= <- <-]. split; [eauto|].
       specialize (Hnode [] (Forall_nil_2 _)). rewrite app_nil_r in Hnode.
       rewrite Hnode. unfold values_leaves at 2. simpl. by rewrite app_nil_r. }
  destruct (Parser.optional_loop rule_heap tokens parse_rule n opts [] reached)
    as [[results final']|e|] eqn:Hloop; simpl; try done.
  apply (optional_loop_consumed n opts reached [] reached) in Hloop;
    [|by eapply definition_ok_alternatives|lia|lia|by rewrite segment_nil].
  destruct Hloop as [Hresults Hfinal].
  destruct results as [|first results]; intros [= <- <-].
  - split; [eauto|].
    specialize (Hnode [] (Forall_nil_2 _)). rewrite app_nil_r in Hnode.
    rewrite Hnode. unfold values_leaves at 2. simpl. rewrite app_nil_r, Hleaves.
    f_equal. unfold list_leaves in Hresults. simpl in Hresults.
    assert (segment tokens reached final' = []) as Hempty.
    { symmetry in Hresults. apply fmap_nil_inv in Hresults. exact Hresults. }
    rewrite <- (segment_app tokens pos reached final') by lia.
    by rewrite Hempty, app_nil_r.
  - split; [eauto|].
    rewrite dict_set_fresh.
    + rewrite (Hnode [("optional", VList (first :: results))]).
      * unfold values_leaves at 2. simpl. rewrite app_nil_r.
        change ((fix of_list (l : list obj) : list (string * string) :=
                   match l with
                   | [] => []
                   | x :: l' => (leaves x ++ of_list l')%list
                   end) results) with (leaves (VList results)).
        rewrite leaves_list.
        change (leaves first ++ list_leaves results)%list
          with (list_leaves (first :: results)).
        rewrite Hleaves, Hresults, <- map_app. f_equal. apply segment_app; lia.
      * constructor; [|constructor]. intros s. done.
    + simpl in Hkeys. injection Hkeys as Hkeys. rewrite Hkeys. intros Hin.
      pose proof (mandatory_keys_not_optional d) as Hno.
      rewrite Forall_forall in Hno. by apply (Hno _ Hin).
Qed.
End Body.

Lemma _parse_rule_consumed fuel rule pos tree final :
  pos ≤ length tokens → tidy_rule rule →
  Parser._parse_rule rule_heap tokens fuel rule pos = Done (Some tree, final) →
  consumed tokens pos tree final.
Proof.
  revert rule pos tree final.
  induction fuel as [|fuel IH]; intros rule pos tree final Hpos Hrule; simpl; [done|].
  apply parse_rule_body_consumed; try done.
  apply _parse_rule_post.
Qed.
End Leaves.

(** X17. The tokens can be read back from the tree.  When the rules of the
    parser have distinct slot names, none called type (also in inline rules),
    the token nodes of the tree that [parse] returns, read left to right, are
    exactly the tokens it was given: kind name and text of each, nothing
    dropped, nothing repeated, in order.  More generally a node returned by
    the matcher entered at [pos] with final position [final] has the tokens
    from [pos] up to [final] as its leaves. *)
Theorem tree_leaves_are_tokens (self : Parser) (tokens : list Token) (fuel : nat) :
  Forall tidy_rule (heap self) →
  (∀ start_rule_name tree,
     Parser.parse fuel self tokens start_rule_name = Done tree →
     leaves tree = map token_leaf tokens)
  ∧ (∀ rule pos tree final,
       tidy_rule rule → pos ≤ length tokens →
       Parser._parse_rule (heap self) tokens fuel rule pos = Done (Some tree, final) →
       leaves tree = map token_leaf (take (final - pos) (drop pos tokens))).
Proof.
  intros Hheap.
  assert (∀ rule pos tree final,
            tidy_rule rule → pos ≤ length tokens →
            Parser._parse_rule (heap self) tokens fuel rule pos = Done (Some tree, final) →
            leaves tree = map token_leaf (take (final - pos) (drop pos tokens)))
    as Hmatcher.
  { intros rule pos tree final Hrule Hpos Hparsed.
    by destruct (_parse_rule_consumed (heap self) tokens Hheap fuel rule pos tree final
                   Hpos Hrule Hparsed) as [_ ?]. }
  split; [|exact Hmatcher].
  intros start_rule_name tree. unfold Parser.parse.
  destruct (rules self !! start_rule_name) as [addr|]; [|done].
  destruct (heap self !! addr) as [rule|] eqn:Hrule; [|done].
  destruct (Parser._parse_rule (heap self) tokens fuel rule 0)
    as [[[tree'|] pos]|e|] eqn:Hparsed; simpl; try done.
  destruct (decide (pos ≠ length tokens)) as [|Heq]; [done|].
  apply dec_stable in Heq. subst pos. intros [= <-].
  rewrite (Hmatcher rule 0 tree' (length tokens)); [|
    rewrite Forall_forall in Hheap; apply Hheap; by eapply list_elem_of_lookup_2
    |lia|done].
  by rewrite Nat.sub_0_r, drop_0, firstn_all.
Qed.

Ltac tidy_rules :=
  repeat (apply Forall_cons; split;
          [split;
           [intros ? [= <-]; split;
            [split; apply (bool_decide_unpack _); vm_compute; exact I
            |repeat constructor]
           |exact I]|]);
  try apply Forall_nil_2.

Lemma main_parser_tidy : Forall tidy_rule (heap main_parser).
Proof.
  let h := eval vm_compute in (heap main_parser) in
  replace (heap main_parser) with h by (vm_compute; reflexivity).
  tidy_rules. all: exact I.
Qed.

Lemma tree_leaves_are_tokens_witness :
  ∃ tree,
    Parser.parse 5 main_parser
      [Examples.token Examples.NUMBER "3" 0; Examples.token Examples.PLUS "+" 2;
       Examples.token Examples.NUMBER "4" 4; Examples.token Examples.PLUS "+" 6;
       Examples.token Examples.NUMBER "5" 8] "math" = Done tree
    ∧ leaves tree
      = [("NUMBER", "3"); ("PLUS", "+"); ("NUMBER", "4"); ("PLUS", "+"); ("NUMBER", "5")].
Proof.
  eexists. split; [vm_compute; reflexivity|].
  apply (proj1 (tree_leaves_are_tokens main_parser
                  [Examples.token Examples.NUMBER "3" 0; Examples.token Examples.PLUS "+" 2;
                   Examples.token Examples.NUMBER "4" 4; Examples.token Examples.PLUS "+" 6;
                   Examples.token Examples.NUMBER "5" 8] 5 main_parser_tidy) "math").
  vm_compute. reflexivity.
Defined.

(** ** Interpreter: the table of interpreting rules and the start rule *)

(** X18. [interpreter[key]] never raises: it returns the rule registered
    under the key, creating it (without code) when there is none.  A second
    lookup returns the same object and changes nothing, and no other object
    is touched: unlike [new_parsing_rule], handles stay valid. *)
Theorem interpreter_getitem_stable (self : InterpreterTable) (key : string) :
  let '(self1, rule) := Table.getitem key self in
  ir_rules self1 !! key = Some rule
  ∧ Table.getitem key self1 = (self1, rule)
  ∧ interpreting_rules self1 = interpreting_rules self
  ∧ (∀ addr r, ir_heap self !! addr = Some r → ir_heap self1 !! addr = Some r)
  ∧ (∀ other addr, ir_rules self !! other = Some addr →
                   ir_rules self1 !! other = Some addr)
  ∧ (ir_rules self !! key = None →
     ir_heap self1 !! rule = Some (Table.new_rule key)
     ∧ Table.implemented key self1 = false).
Proof.
  unfold Table.getitem. destruct (ir_rules self !! key) as [addr|] eqn:Hkey.
  - rewrite Hkey. by repeat split.
  - simpl. rewrite lookup_insert_eq. repeat split; try done.
    + intros addr r Hr. by apply lookup_app_l_Some.
    + intros other addr Hother. rewrite lookup_insert_ne; [done|congruence].
    + rewrite lookup_app_r by lia. by rewrite Nat.sub_diag.
    + unfold Table.implemented. simpl. rewrite lookup_insert_eq.
      rewrite lookup_app_r by lia. by rewrite Nat.sub_diag.
Qed.

Lemma interpreter_getitem_stable_witness :
  let '(self1, rule) := Table.getitem "math" Table.init in
  ir_heap self1 !! rule = Some (Table.new_rule "math")
  ∧ Table.implemented "math" self1 = false.
Proof.
  pose proof (interpreter_getitem_stable Table.init "math") as Hstable.
  destruct (Table.getitem "math" Table.init) as [self1 rule].
  apply Hstable. reflexivity.
Defined.

Lemma getitem_registered self key self1 rule :
  Table.getitem key self = (self1, rule) → ir_rules self1 !! key = Some rule.
Proof.
  unfold Table.getitem. destruct (ir_rules self !! key) as [addr|] eqn:Hkey.
  - by intros [= <- <-].
  - intros [= <- <-]. simpl. apply lookup_insert_eq.
Qed.

(** X19. [add_interpreting_rule] puts the rule of the given name in
    [interpreting_rules] once: after the call the rule is in the list, a list
    without repetition stays without repetition, and a second call with the
    same name changes nothing. *)
Theorem add_interpreting_rule_once (self : InterpreterTable) (rule_name : string) :
  let '(self1, rule) := Table.add_interpreting_rule rule_name self in
  rule ∈ interpreting_rules self1
  ∧ ir_rules self1 !! rule_name = Some rule
  ∧ (NoDup (interpreting_rules self) → NoDup (interpreting_rules self1))
  ∧ Table.add_interpreting_rule rule_name self1 = (self1, rule).
Proof.
  unfold Table.add_interpreting_rule.
  destruct (Table.getitem rule_name self) as [self0 rule] eqn:Hget.
  pose proof (getitem_registered _ _ _ _ Hget) as Hreg.
  assert (interpreting_rules self0 = interpreting_rules self) as Hlist.
  { unfold Table.getitem in Hget. destruct (ir_rules self !! rule_name);
      by injection Hget as <- <-. }
  destruct (decide (rule ∈ interpreting_rules self0)) as [Hin|Hnotin].
  - split; [done|]. split; [done|]. split; [by rewrite Hlist|].
    unfold Table.getitem. rewrite Hreg. by rewrite decide_True.
  - simpl. split; [set_solver|]. split; [done|]. split.
    + rewrite Hlist in *. intros Hnodup. apply NoDup_app. repeat split; try done.
      * intros x Hx Hx'. apply list_elem_of_singleton in Hx' as ->. done.
      * apply NoDup_singleton.
    + unfold Table.getitem. simpl. rewrite Hreg. simpl.
      rewrite decide_True; [done|set_solver].
Qed.

Lemma add_interpreting_rule_once_witness :
  let '(self1, rule) := Table.add_interpreting_rule "math" Table.init in
  NoDup (interpreting_rules self1).
Proof.
  pose proof (add_interpreting_rule_once Table.init "math") as Honce.
  destruct (Table.add_interpreting_rule "math" Table.init) as [self1 rule].
  apply Honce. constructor.
Defined.

(** X20. [add_interpreting_rules] appends the handles it is given without
    looking at the list: passing a rule that is already listed, as main.py
    does after [add_interpreting_rule], leaves the rule listed twice. *)
Theorem add_interpreting_rules_repeats (self : InterpreterTable) (rule : nat) :
  rule ∈ interpreting_rules self →
  ¬ NoDup (interpreting_rules (Table.add_interpreting_rules [rule] self))
  ∧ length (interpreting_rules (Table.add_interpreting_rules [rule] self))
    = S (length (interpreting_rules self)).
Proof.
  intros Hin. simpl. split.
  - intros Hnodup. apply NoDup_app in Hnodup as (_ & Hdisjoint & _).
    apply (Hdisjoint rule Hin). by left.
  - rewrite length_app. simpl. lia.
Qed.

Lemma add_interpreting_rules_repeats_witness :
  ¬ NoDup (interpreting_rules
             (Table.add_interpreting_rules [0]
                (Table.add_interpreting_rule "math" Table.init).1)).
Proof.
  apply (add_interpreting_rules_repeats
           (Table.add_interpreting_rule "math" Table.init).1 0).
  vm_compute. by left.
Defined.

(** X21. A rule counts as implemented, for the test that [interpret] makes
    before running code, exactly from the call of
    [implement_interpreting_rule] on its handle: the rule that a lookup has
    just created is not implemented, and after the call the rule is, while the
    answer for every other registered name is as before. *)
Theorem implemented_after_implement (self : InterpreterTable) (key code : string)
    (external_variables : option (list string)) (rule : nat) :
  ir_rules self !! key = Some rule →
  rule < length (ir_heap self) →
  let self1 := Table.implement_interpreting_rule rule code external_variables self in
  Table.implemented key self1 = true
  ∧ (ir_code <$> ir_heap self1 !! rule) = Some (Some code)
  ∧ (ir_external_variable_names <$> ir_heap self1 !! rule)
    = Some (Some (default [] external_variables))
  ∧ ∀ other addr, ir_rules self !! other = Some addr → addr ≠ rule →
      Table.implemented other self1 = Table.implemented other self.
Proof.
  intros Hkey Hrule. simpl.
  destruct (lookup_lt_is_Some_2 _ _ Hrule) as [r Hr].
  unfold Table.implemented, Table.implement_interpreting_rule. simpl.
  rewrite Hkey, list_lookup_alter_eq, Hr. simpl. repeat split.
  intros other addr Hother Hne. rewrite Hother.
  by rewrite list_lookup_alter_ne.
Qed.

Lemma implemented_after_implement_witness :
  Table.implemented "math"
    (Table.implement_interpreting_rule 0 "return a" None
       (Table.getitem "math" Table.init).1) = true.
Proof.
  apply (implemented_after_implement (Table.getitem "math" Table.init).1
           "math" "return a" None 0).
  - vm_compute. reflexivity.
  - vm_compute. lia.
Defined.

(** X22. The start rule chosen for a text is either a registered rule or the
    fixed default math; when the default is chosen although no rule math is
    registered, [parse] is called with it all the same and raises KeyError.
    This happens exactly when neither program, nor the first token's kind
    name, nor its lowercase form, nor (for LPAREN) paren_math is registered,
    and math is not either. *)
Theorem start_rule_registered_or_default (parser : Parser) (tokens : list Token)
    (fuel : nat) :
  let start := Interpreter.start_rule (rules parser) tokens in
  (start ∈ dom (rules parser) ∨ start = "math")
  ∧ (start ∉ dom (rules parser) →
     start = "math"
     ∧ Parser.parse fuel parser tokens start = Raise (KeyError "math")).
Proof.
  simpl.
  assert (Interpreter.start_rule (rules parser) tokens ∈ dom (rules parser)
          ∨ Interpreter.start_rule (rules parser) tokens = "math") as Hcases.
  { unfold Interpreter.start_rule.
    destruct (decide ("program" ∈ dom (rules parser))); [by left|].
    set (candidate := match tokens with
                      | tok :: _ => td_name (tok_type tok)
                      | [] => "math"
                      end).
    destruct (decide (candidate ∈ dom (rules parser))); [by left|].
    destruct (decide (Str.lower candidate ∈ dom (rules parser))); [by left|].
    destruct (String.eqb candidate "LPAREN"
              && bool_decide ("paren_math" ∈ dom (rules parser))) eqn:Hparen;
      [|by right].
    apply andb_true_iff in Hparen as [_ Hparen]. left.
    by apply bool_decide_eq_true in Hparen. }
  split; [exact Hcases|].
  intros Hnot. destruct Hcases as [Hin|Hmath]; [done|]. split; [done|].
  rewrite Hmath in *. unfold Parser.parse.
  by rewrite (proj1 (not_elem_of_dom _ _) Hnot).
Qed.

Lemma start_rule_registered_or_default_witness :
  Interpreter.start_rule (rules Parser.init) Examples.two_numbers = "math"
  ∧ Parser.parse 3 Parser.init Examples.two_numbers
      (Interpreter.start_rule (rules Parser.init) Examples.two_numbers)
    = Raise (KeyError "math").
Proof.
  apply (proj2 (start_rule_registered_or_default Parser.init Examples.two_numbers 3)).
  simpl rules. rewrite dom_empty_L. apply not_elem_of_empty.
Defined.
